(** * Device type propagation over the TorchScript IR

    A shallow embedding of [torch/csrc/jit/passes/device_type_analysis.cpp]
    and the properties of the pass that its specification states.

    The IR is modelled the way the pass sees it: a [Value] is a handle, the
    types of all values live in one shared table that the pass mutates in
    place, nodes and blocks are an immutable tree over those handles.  A C++
    exception ([expect<TensorType>], [TORCH_INTERNAL_ASSERT], [at(i)])
    is an [Abort] outcome that still carries the table as it was when the
    exception was thrown. *)

From Stdlib Require Import String List Bool ZArith NArith Lia.
Import ListNotations.

(** ** Devices ([c10::Device]) *)

Inductive DeviceType : Type := CPU | CUDA | HIP | XLA | MPS | Meta.

Record Device : Type := mkDevice { dev_type : DeviceType; dev_index : Z }.

Definition DeviceType_eqb (a b : DeviceType) : bool :=
  match a, b with
  | CPU, CPU | CUDA, CUDA | HIP, HIP | XLA, XLA | MPS, MPS | Meta, Meta => true
  | _, _ => false
  end.

(** [Device::operator==] compares the type and the index. *)
Definition Device_eqb (a b : Device) : bool :=
  DeviceType_eqb (dev_type a) (dev_type b) && Z.eqb (dev_index a) (dev_index b).

Definition is_cpu (d : Device) : bool := DeviceType_eqb (dev_type d) CPU.

(** Comparison of two [c10::optional<Device>]. *)
Definition optDevice_eqb (a b : option Device) : bool :=
  match a, b with
  | Some x, Some y => Device_eqb x y
  | None, None => true
  | _, _ => false
  end.

(** ** Types ([c10::Type]) *)

Inductive ScalarType : Type :=
  kByte | kInt | kLong | kHalf | kFloat | kDouble | kBool.

(** The fields of a [TensorType] that the pass can observe: the device, the
    rank of [symbolic_sizes()], and one field standing for the rest. *)
Record TensorType : Type := mkTensorType {
  tt_device : option Device;
  tt_rank : option N;
  tt_scalar_type : option ScalarType
}.

Definition withDevice (t : TensorType) (device : option Device) : TensorType :=
  mkTensorType device (tt_rank t) (tt_scalar_type t).

Inductive JitType : Type :=
| TensorT (t : TensorType)
| DeviceObjT
| NoneT
| IntT
| FloatT
| BoolT
| StringT
| AnyT
| OptionalT (elem : JitType)
| ListT (elem : JitType).

(** [type->cast<TensorType>()]: a null pointer unless the type is a tensor. *)
Definition cast_TensorType (t : JitType) : option TensorType :=
  match t with TensorT ty => Some ty | _ => None end.

Definition isTensor (t : JitType) : bool :=
  match cast_TensorType t with Some _ => true | None => false end.

(** ** Constants ([c10::IValue], as far as [toIValue] results are tested) *)

Inductive IValue : Type :=
| IVNone
| IVDevice (d : Device)
| IVString (s : string)
| IVInt (z : Z)
| IVBool (b : bool).

Definition isNone (v : IValue) : bool :=
  match v with IVNone => true | _ => false end.

Definition isDevice (v : IValue) : bool :=
  match v with IVDevice _ => true | _ => false end.

Definition toDevice (v : IValue) : option Device :=
  match v with IVDevice d => Some d | _ => None end.

(** ** Graph structure *)

(** A [Value*].  Its type is looked up in the shared table below. *)
Definition Value : Type := nat.

Inductive NodeKind : Type :=
| prim_If
| prim_Loop
| prim_CallMethod
| prim_CallFunction
| prim_Constant
| prim_ListConstruct
| prim_ListUnpack
| prim_other (name : string)
| aten (name : string)
| other_ns (ns name : string).

Definition is_aten (k : NodeKind) : bool :=
  match k with aten _ => true | _ => false end.

Record Argument : Type := mkArgument { arg_name : string; arg_type : JitType }.

Record FunctionSchema : Type := mkSchema { arguments : list Argument }.

Record Operator : Type := mkOperator { op_schema : FunctionSchema }.

Inductive Node : Type :=
| mkNode (kind : NodeKind) (inputs outputs : list Value)
         (blocks : list Block) (op : option Operator)
with Block : Type :=
| mkBlock (nodes : list Node) (outputs : list Value).

Definition n_kind (n : Node) : NodeKind :=
  match n with mkNode k _ _ _ _ => k end.
Definition n_inputs (n : Node) : list Value :=
  match n with mkNode _ i _ _ _ => i end.
Definition n_outputs (n : Node) : list Value :=
  match n with mkNode _ _ o _ _ => o end.
Definition n_blocks (n : Node) : list Block :=
  match n with mkNode _ _ _ b _ => b end.
Definition maybeOperator (n : Node) : option Operator :=
  match n with mkNode _ _ _ _ op => op end.
(** [Node::maybeSchema] is the schema of [maybeOperator], when there is one. *)
Definition maybeSchema (n : Node) : option FunctionSchema :=
  option_map op_schema (maybeOperator n).

Definition b_nodes (b : Block) : list Node :=
  match b with mkBlock ns _ => ns end.
Definition b_outputs (b : Block) : list Value :=
  match b with mkBlock _ o => o end.

Record Graph : Type := mkGraph { g_block : Block }.

(** ** The mutable part: the type of every value *)

Definition ValueTypes : Type := Value -> JitType.

Definition setType (s : ValueTypes) (v : Value) (t : JitType) : ValueTypes :=
  fun w => if Nat.eqb w v then t else s w.

Inductive Error : Type :=
| ExpectFailed      (* type->expect<TensorType>() on another type *)
| InternalAssert    (* TORCH_INTERNAL_ASSERT *)
| OutOfRange.       (* vector::at / ArrayRef::at *)

Inductive Outcome (A : Type) : Type :=
| Done (a : A) (s : ValueTypes)
| Abort (e : Error) (s : ValueTypes).

Arguments Done {A} a s.
Arguments Abort {A} e s.

Definition M (A : Type) : Type := ValueTypes -> Outcome A.

Definition ret {A} (a : A) : M A := fun s => Done a s.

Definition bind {A B} (m : M A) (k : A -> M B) : M B :=
  fun s => match m s with
           | Done a s' => k a s'
           | Abort e s' => Abort e s'
           end.

Definition throw {A} (e : Error) : M A := fun s => Abort e s.

Declare Scope pass_scope.
Delimit Scope pass_scope with pass.
Notation "x <- m ;; k" := (bind m (fun x => k))
  (at level 61, m at next level, right associativity) : pass_scope.
Open Scope pass_scope.

(** ** Free functions of the pass *)

(** [setDeviceType], source lines 30-37. *)
Definition setDeviceType (value : Value) (device : option Device) : M bool :=
  fun s =>
    match cast_TensorType (s value) with
    | None => Abort ExpectFailed s
    | Some tensor_type =>
        let changed := negb (optDevice_eqb (tt_device tensor_type) device) in
        if changed
        then Done true (setType s value (TensorT (withDevice tensor_type device)))
        else Done false s
    end.

(** The loop of [setReturnsToDevice], with [changed] as accumulator. *)
Fixpoint setReturnsLoop (outs : list Value) (device : option Device)
    (changed : bool) : M bool :=
  match outs with
  | [] => ret changed
  | out :: rest =>
      fun s =>
        match cast_TensorType (s out) with
        | None => setReturnsLoop rest device changed s
        | Some _ =>
            (c <- setDeviceType out device ;;
             setReturnsLoop rest device (changed || c)) s
        end
  end.

(** [setReturnsToDevice], source lines 39-49. *)
Definition setReturnsToDevice (n : Node) (device : option Device) : M bool :=
  setReturnsLoop (n_outputs n) device false.

(** The three locals of [propWithNoDevice]. *)
Record ScanState : Type := mkScan {
  device : option Device;
  seen_any_device : bool;
  only_seen_cpu_zerodim : bool
}.

(** [(size_t)-1], the value of [rank().value_or(-1)] for an unknown rank. *)
Definition size_t_minus_one : N := 2 ^ 64 - 1.

Definition is_zerodim (t : TensorType) : bool :=
  N.eqb (match tt_rank t with Some r => r | None => size_t_minus_one end) 0.

Definition is_cpu_zerodim (t : TensorType) : bool :=
  is_zerodim t &&
  match tt_device t with Some d => is_cpu d | None => false end.

(** One iteration of the loop of [propWithNoDevice] on a tensor-typed input;
    [None] is the early [return setReturnsToDevice(n, c10::nullopt)]. *)
Definition scanStep (st : ScanState) (tensor_type : TensorType)
    : option ScanState :=
  if seen_any_device st then
    if negb (optDevice_eqb (device st) (tt_device tensor_type))
       && negb (is_cpu_zerodim tensor_type)
    then
      if only_seen_cpu_zerodim st
      then Some (mkScan (tt_device tensor_type) true false)
      else None
    else Some st
  else Some (mkScan (tt_device tensor_type) true (is_cpu_zerodim tensor_type)).

Fixpoint scanInputs (s : ValueTypes) (inps : list Value) (st : ScanState)
    : option ScanState :=
  match inps with
  | [] => Some st
  | inp :: rest =>
      match cast_TensorType (s inp) with
      | None => scanInputs s rest st
      | Some tensor_type =>
          match scanStep st tensor_type with
          | None => None
          | Some st' => scanInputs s rest st'
          end
      end
  end.

Definition scanInit : ScanState := mkScan None false false.

(** [propWithNoDevice], source lines 51-90. *)
Definition propWithNoDevice (n : Node) : M bool :=
  fun s =>
    match scanInputs s (n_inputs n) scanInit with
    | None => setReturnsToDevice n None s
    | Some st => setReturnsToDevice n (device st) s
    end.

(** ** The operator rule and the pass

    Two collaborators of the pass are not part of this file of the
    repository and are taken as parameters: the subtype check of the type
    system, and [toIValue], the statically known constant of a value
    ([None] when the value is not a constant). *)

Section Pass.

Variable isSubtypeOf : JitType -> JitType -> bool.
Variable toIValue : Value -> option IValue.

(** The loop over the schema's arguments in [defaultDeviceProp]; [i] is the
    loop index, [args] the arguments from [i] on. *)
Fixpoint argumentsLoop (n : Node) (i : nat) (args : list Argument) : M bool :=
  match args with
  | [] => propWithNoDevice n
  | argument :: rest =>
      if isSubtypeOf DeviceObjT (arg_type argument) then
        match nth_error (n_inputs n) i with
        | None => throw OutOfRange
        | Some inp =>
            match toIValue inp with
            | None => ret false
            | Some input_val =>
                if isNone input_val then argumentsLoop n (S i) rest
                else if negb (isDevice input_val) then ret false
                else match toDevice input_val with
                     | Some d => setReturnsToDevice n (Some d)
                     | None => throw InternalAssert
                     end
            end
        end
      else argumentsLoop n (S i) rest
  end.

(** [defaultDeviceProp], source lines 92-122. *)
Definition defaultDeviceProp (n : Node) : M bool :=
  match maybeSchema n with
  | None => ret false
  | Some schema => argumentsLoop n 0 (arguments schema)
  end.

(** The loop of [mergeAndApplyTensorProps] over the positions of [dst];
    [src1[i]] and [src2[i]] are read before [dst[i]] is written. *)
Fixpoint mergeLoop (src1 src2 dst : list Value) (changed : bool) {struct dst}
    : M bool :=
  match dst, src1, src2 with
  | [], _, _ => ret changed
  | d :: dst', a :: src1', b :: src2' =>
      fun s =>
        match cast_TensorType (s a), cast_TensorType (s b) with
        | Some src1_type, Some src2_type =>
            let differ :=
              match tt_device src1_type, tt_device src2_type with
              | Some x, Some y => negb (Device_eqb x y)
              | _, _ => true
              end in
            (c <- (if differ then setDeviceType d None
                   else setDeviceType d (tt_device src1_type)) ;;
             mergeLoop src1' src2' dst' (changed || c)) s
        | _, _ => mergeLoop src1' src2' dst' changed s
        end
  | _ :: _, _, _ => throw OutOfRange (* excluded by the size assertions *)
  end.

(** [mergeAndApplyTensorProps], source lines 181-204. *)
Definition mergeAndApplyTensorProps (src1 src2 dst : list Value) : M bool :=
  if negb (Nat.eqb (length src1) (length src2)) then throw InternalAssert
  else if negb (Nat.eqb (length src1) (length dst)) then throw InternalAssert
  else mergeLoop src1 src2 dst false.

(** [processAtenOps], source lines 219-228; [changed_] is the member of the
    pass object, threaded through. *)
Definition processAtenOps (n : Node) (changed_ : bool) : M bool :=
  match maybeOperator n with
  | None => ret changed_
  | Some _ => c <- defaultDeviceProp n ;; ret (changed_ || c)
  end.

Definition has_tensor_output (n : Node) (s : ValueTypes) : bool :=
  existsb (fun v => isTensor (s v)) (n_outputs n).

(** [processNode] and [processBlock], source lines 136-179, with the body of
    [processIf] (lines 206-217) in the [prim_If] case: the result of
    [mergeAndApplyTensorProps] is dropped there. *)
Fixpoint processNode (n : Node) (changed_ : bool) {struct n} : M bool :=
  match n with
  | mkNode kind _ _ blocks _ =>
      match kind with
      | prim_If =>
          match blocks with
          | true_block :: false_block :: _ =>
              c1 <- processBlock true_block changed_ ;;
              c2 <- processBlock false_block c1 ;;
              _ <- mergeAndApplyTensorProps (b_outputs true_block)
                     (b_outputs false_block) (n_outputs n) ;;
              ret c2
          | _ => throw OutOfRange
          end
      | prim_Loop | prim_CallMethod | prim_CallFunction => ret changed_
      | _ =>
          fun s =>
            if negb (has_tensor_output n s) then Done changed_ s
            else
              match kind with
              | prim_Constant | prim_ListConstruct | prim_ListUnpack =>
                  Done changed_ s
              | _ =>
                  if is_aten kind then processAtenOps n changed_ s
                  else Done changed_ s
              end
      end
  end
with processBlock (block : Block) (changed_ : bool) {struct block} : M bool :=
  match block with
  | mkBlock nodes _ =>
      (fix loop (ns : list Node) (changed_ : bool) : M bool :=
         match ns with
         | [] => ret changed_
         | n :: rest => c <- processNode n changed_ ;; loop rest c
         end) nodes changed_
  end.

(** [processIf], as a function of its own. *)
Definition processIf (node : Node) (changed_ : bool) : M bool :=
  match n_blocks node with
  | true_block :: false_block :: _ =>
      c1 <- processBlock true_block changed_ ;;
      c2 <- processBlock false_block c1 ;;
      _ <- mergeAndApplyTensorProps (b_outputs true_block)
             (b_outputs false_block) (n_outputs node) ;;
      ret c2
  | _ => throw OutOfRange
  end.

Fixpoint processNodes (ns : list Node) (changed_ : bool) : M bool :=
  match ns with
  | [] => ret changed_
  | n :: rest => c <- processNode n changed_ ;; processNodes rest c
  end.

(** [DeviceTypePropagationPass::run] on a fresh pass object, which is all
    that [DeviceTypePropagation] does. *)
Definition run (g : Graph) : M bool := processBlock (g_block g) false.

Definition DeviceTypePropagation (g : Graph) : M bool := run g.

End Pass.

(** ** Static single assignment

    What the IR guarantees about the handles of a graph: the outputs of a
    node are fresh values, distinct from one another, from the node's inputs
    and from everything inside its blocks; a value is used only after the
    node that defines it.  [defs] collects the values defined in a subtree,
    [uses] the values read in it (the inputs of nodes and the exit values of
    blocks). *)

Fixpoint defs_node (n : Node) : list Value :=
  match n with
  | mkNode _ _ outs blocks _ => outs ++ flat_map defs_block blocks
  end
with defs_block (b : Block) : list Value :=
  match b with
  | mkBlock ns _ => flat_map defs_node ns
  end.

Fixpoint uses_node (n : Node) : list Value :=
  match n with
  | mkNode _ ins _ blocks _ => ins ++ flat_map uses_block blocks
  end
with uses_block (b : Block) : list Value :=
  match b with
  | mkBlock ns outs => flat_map uses_node ns ++ outs
  end.

Definition memb (v : Value) (l : list Value) : bool := existsb (Nat.eqb v) l.

Definition disjointb (l1 l2 : list Value) : bool :=
  forallb (fun v => negb (memb v l2)) l1.

Fixpoint nodupb (l : list Value) : bool :=
  match l with
  | [] => true
  | v :: rest => negb (memb v rest) && nodupb rest
  end.

Fixpoint wf_node (n : Node) : bool :=
  match n with
  | mkNode _ ins outs blocks _ =>
      nodupb outs
      && disjointb outs
           (ins ++ flat_map uses_block blocks ++ flat_map defs_block blocks)
      && (fix wf_blocks (bs : list Block) : bool :=
            match bs with
            | [] => true
            | b :: rest =>
                wf_block b
                && disjointb (uses_block b ++ defs_block b)
                     (flat_map defs_block rest)
                && wf_blocks rest
            end) blocks
  end
with wf_block (b : Block) : bool :=
  match b with
  | mkBlock ns _ =>
      (fix wf_nodes (ns : list Node) : bool :=
         match ns with
         | [] => true
         | n :: rest =>
             wf_node n
             && disjointb (uses_node n ++ defs_node n)
                  (flat_map defs_node rest)
             && wf_nodes rest
         end) ns
  end.

Fixpoint wf_nodes (ns : list Node) : bool :=
  match ns with
  | [] => true
  | n :: rest =>
      wf_node n
      && disjointb (uses_node n ++ defs_node n) (flat_map defs_node rest)
      && wf_nodes rest
  end.

Fixpoint wf_blocks (bs : list Block) : bool :=
  match bs with
  | [] => true
  | b :: rest =>
      wf_block b
      && disjointb (uses_block b ++ defs_block b) (flat_map defs_block rest)
      && wf_blocks rest
  end.

Definition wf_graph (g : Graph) : bool := wf_block (g_block g).

(** ** The specification's wording, where it is compared with the code *)

(** Section 4.1 of the specification, the merge with its exception for a
    zero-rank value on the default location: the other side's device wins. *)
Definition spec_merge (t1 t2 : TensorType) : option Device :=
  match tt_device t1, tt_device t2 with
  | Some x, Some y =>
      if Device_eqb x y then Some x
      else if is_cpu_zerodim t1 then Some y
      else if is_cpu_zerodim t2 then Some x
      else None
  | _, _ => None
  end.

Section SpecWording.

Variable isSubtypeOf : JitType -> JitType -> bool.
Variable toIValue : Value -> option IValue.

(** Section 4.3 of the specification read literally: a parameter is
    selected when its declared type is a subtype of the device type. *)
Fixpoint spec_argumentsLoop (n : Node) (i : nat) (args : list Argument)
    : M bool :=
  match args with
  | [] => propWithNoDevice n
  | argument :: rest =>
      if isSubtypeOf (arg_type argument) DeviceObjT then
        match nth_error (n_inputs n) i with
        | None => throw OutOfRange
        | Some inp =>
            match toIValue inp with
            | None => ret false
            | Some IVNone => spec_argumentsLoop n (S i) rest
            | Some (IVDevice d) => setReturnsToDevice n (Some d)
            | Some _ => ret false
            end
        end
      else spec_argumentsLoop n (S i) rest
  end.

Definition spec_defaultDeviceProp (n : Node) : M bool :=
  match maybeSchema n with
  | None => ret false
  | Some schema => spec_argumentsLoop n 0 (arguments schema)
  end.

End SpecWording.

(** ** A concrete type system and concrete graphs *)

(** Modelled from the spec: the subtype check of the type system, which is
    not in this file of the repository.  Base types are subtypes of
    themselves, [Optional[T]] is above [T] and [None], [Any] is above
    everything; the [Tensor] of a schema is above every tensor type. *)
Fixpoint jit_isSubtypeOf (t1 t2 : JitType) : bool :=
  match t2 with
  | AnyT => true
  | OptionalT e2 =>
      match t1 with
      | NoneT => true
      | OptionalT e1 => jit_isSubtypeOf e1 e2
      | _ => jit_isSubtypeOf t1 e2
      end
  | TensorT _ => match t1 with TensorT _ => true | _ => false end
  | DeviceObjT => match t1 with DeviceObjT => true | _ => false end
  | NoneT => match t1 with NoneT => true | _ => false end
  | IntT => match t1 with IntT => true | _ => false end
  | FloatT => match t1 with FloatT => true | _ => false end
  | BoolT => match t1 with BoolT => true | _ => false end
  | StringT => match t1 with StringT => true | _ => false end
  | ListT e2 => match t1 with ListT e1 => jit_isSubtypeOf e1 e2 | _ => false end
  end.

(** A table of types, and a table of constants, as functions. *)
Fixpoint types_of (tbl : list (Value * JitType)) : ValueTypes :=
  match tbl with
  | [] => fun _ => NoneT
  | (v, t) :: rest => setType (types_of rest) v t
  end.

Fixpoint consts_of (tbl : list (Value * IValue)) (v : Value) : option IValue :=
  match tbl with
  | [] => None
  | (w, c) :: rest => if Nat.eqb v w then Some c else consts_of rest v
  end.

Definition cpu : Device := mkDevice CPU (-1).
Definition cuda0 : Device := mkDevice CUDA 0.
Definition cuda1 : Device := mkDevice CUDA 1.

Definition tensor (d : option Device) (rank : option N) : JitType :=
  TensorT (mkTensorType d rank (Some kFloat)).

Definition plainTensor : JitType := TensorT (mkTensorType None None None).

Definition no_consts : Value -> option IValue := consts_of [].

(** The device read back from the table; [None] also for a non-tensor. *)
Definition device_of (s : ValueTypes) (v : Value) : option Device :=
  match cast_TensorType (s v) with
  | Some t => tt_device t
  | None => None
  end.

(** *** A conditional whose branches only forward outer values *)

Definition if_types : ValueTypes :=
  types_of [(0, BoolT);
            (1, tensor (Some cpu) (Some 2%N));
            (2, tensor (Some cpu) (Some 2%N));
            (3, tensor None (Some 2%N))].

Definition if_node : Node :=
  mkNode prim_If [0] [3] [mkBlock [] [1]; mkBlock [] [2]] None.

Definition if_graph : Graph := mkGraph (mkBlock [if_node] [3]).

(** *** A join of a zero-rank default-location value with a CUDA value *)

Definition join_types : ValueTypes :=
  types_of [(1, tensor (Some cpu) (Some 0%N));
            (2, tensor (Some cuda0) (Some 2%N));
            (3, tensor (Some cpu) (Some 2%N))].

(** *** [aten::to(Tensor self, Device? device)] with a constant device *)

Definition to_schema : FunctionSchema :=
  mkSchema [mkArgument "self" plainTensor;
            mkArgument "device" (OptionalT DeviceObjT)].

Definition to_node : Node :=
  mkNode (aten "to") [1; 4] [5] [] (Some (mkOperator to_schema)).

Definition to_types : ValueTypes :=
  types_of [(1, tensor (Some cpu) (Some 2%N));
            (4, DeviceObjT);
            (5, tensor None (Some 2%N))].

Definition to_consts : Value -> option IValue := consts_of [(4, IVDevice cuda0)].

(** *** An operator with two device parameters, the first one dynamic *)

Definition two_device_schema : FunctionSchema :=
  mkSchema [mkArgument "self" plainTensor;
            mkArgument "a" DeviceObjT;
            mkArgument "b" DeviceObjT].

Definition two_device_node : Node :=
  mkNode (aten "copy_between") [1; 20; 21] [5] []
    (Some (mkOperator two_device_schema)).

Definition two_device_types : ValueTypes :=
  types_of [(1, tensor (Some cpu) (Some 2%N));
            (20, DeviceObjT);
            (21, DeviceObjT);
            (5, tensor (Some cpu) (Some 2%N))].

Definition two_device_consts : Value -> option IValue :=
  consts_of [(21, IVDevice cuda0)].

(** The same operator with its first device parameter left as [None]. *)
Definition two_device_consts' : Value -> option IValue :=
  consts_of [(20, IVNone); (21, IVDevice cuda0)].

(** An operator whose device parameter is a string constant, as a union
    parameter admits. *)
Definition union_consts : Value -> option IValue :=
  consts_of [(4, IVString "cuda:0")].

(** *** Four tensor operands: two zero-rank CPU scalars, then two tensors *)

Definition four_schema : FunctionSchema :=
  mkSchema [mkArgument "a" plainTensor; mkArgument "b" plainTensor;
            mkArgument "c" plainTensor; mkArgument "d" plainTensor].

Definition four_node : Node :=
  mkNode (aten "addcmul") [10; 11; 12; 13] [14] []
    (Some (mkOperator four_schema)).

(** [C] on the first CUDA device, [D] on the second. *)
Definition four_types : ValueTypes :=
  types_of [(10, tensor (Some cpu) (Some 0%N));
            (11, tensor (Some cpu) (Some 0%N));
            (12, tensor (Some cuda0) (Some 2%N));
            (13, tensor (Some cuda1) (Some 2%N));
            (14, tensor (Some cpu) (Some 2%N))].

(** [C] a matrix on the CPU, the device of [A] and [B]; [D] on CUDA. *)
Definition four_types_cpu : ValueTypes :=
  types_of [(10, tensor (Some cpu) (Some 0%N));
            (11, tensor (Some cpu) (Some 0%N));
            (12, tensor (Some cpu) (Some 2%N));
            (13, tensor (Some cuda0) (Some 2%N));
            (14, tensor None (Some 2%N))].

(** *** Two operands on two CUDA devices *)

Definition add_schema : FunctionSchema :=
  mkSchema [mkArgument "self" plainTensor; mkArgument "other" plainTensor].

Definition add_node : Node :=
  mkNode (aten "add") [12; 13] [14; 15] [] (Some (mkOperator add_schema)).

Definition add_types : ValueTypes :=
  types_of [(12, tensor (Some cuda0) (Some 2%N));
            (13, tensor (Some cuda1) (Some 2%N));
            (14, tensor (Some cpu) (Some 2%N));
            (15, IntT)].

(** *** A loop node with a tensor output *)

Definition loop_node : Node :=
  mkNode prim_Loop [0; 12] [14] [mkBlock [] [12]] None.

(** *** A graph with operators before, inside and after a conditional *)

Definition relu_schema : FunctionSchema :=
  mkSchema [mkArgument "self" plainTensor].

Definition small_graph : Graph :=
  mkGraph (mkBlock
    [ mkNode (aten "relu") [1] [6] [] (Some (mkOperator relu_schema));
      mkNode prim_If [0] [9]
        [ mkBlock [mkNode (aten "to") [6; 4] [7] []
                     (Some (mkOperator to_schema))] [7];
          mkBlock [mkNode (aten "relu") [6] [8] []
                     (Some (mkOperator relu_schema))] [8] ] None;
      mkNode (aten "add") [9; 6] [10] [] (Some (mkOperator add_schema)) ]
    [10]).

Definition small_types : ValueTypes :=
  types_of [(0, BoolT);
            (1, tensor (Some cpu) (Some 2%N));
            (4, DeviceObjT);
            (6, tensor None (Some 2%N));
            (7, tensor None (Some 2%N));
            (8, tensor None (Some 2%N));
            (9, tensor (Some cpu) (Some 2%N));
            (10, tensor None (Some 2%N))].

(** *** A conditional whose output is not a tensor *)

Definition bad_join_types : ValueTypes :=
  types_of [(1, tensor (Some cpu) (Some 2%N));
            (2, tensor (Some cpu) (Some 2%N));
            (3, IntT)].

(** ** Vocabulary of the statements *)

(** The table an outcome leaves behind, whether the call returned or threw. *)
Definition final {A} (o : Outcome A) : ValueTypes :=
  match o with
  | Done _ s => s
  | Abort _ s => s
  end.

(** The only change the pass ever makes to a type: the device of a tensor. *)
Definition redeviced (t t' : JitType) : Prop :=
  t' = t \/ exists ty d, t = TensorT ty /\ t' = TensorT (withDevice ty d).

Definition only_devices_change (s s' : ValueTypes) : Prop :=
  forall v, redeviced (s v) (s' v).

Definition agree_on (l : list Value) (s t : ValueTypes) : Prop :=
  forall v, In v l -> t v = s v.

(** A monadic action that leaves the type of [v] alone, however it ends. *)
Definition preserves {A} (m : M A) (v : Value) : Prop :=
  forall s, final (m s) v = s v.

(** The device the join of a conditional writes, as the code computes it. *)
Definition code_join (d1 d2 : option Device) : option Device :=
  match d1, d2 with
  | Some x, Some y => if Device_eqb x y then Some x else None
  | _, _ => None
  end.

(** Every output of a conditional already carries the join of the two exit
    values at its position. *)
Fixpoint joined (s : ValueTypes) (src1 src2 dst : list Value) {struct dst}
    : Prop :=
  match dst, src1, src2 with
  | [], _, _ => True
  | d :: dst', a :: src1', b :: src2' =>
      (forall ta tb, s a = TensorT ta -> s b = TensorT tb ->
         exists td, s d = TensorT td /\
                    tt_device td = code_join (tt_device ta) (tt_device tb))
      /\ joined s src1' src2' dst'
  | _ :: _, _, _ => False
  end.

(** Wherever both exit values are tensors, the output is a tensor too. *)
Fixpoint join_typed (s : ValueTypes) (src1 src2 dst : list Value) {struct dst}
    : bool :=
  match dst, src1, src2 with
  | d :: dst', a :: src1', b :: src2' =>
      (negb (isTensor (s a) && isTensor (s b)) || isTensor (s d))
      && join_typed s src1' src2' dst'
  | _, _, _ => true
  end.

(** An output is stale for [d] when it is a tensor on another device. *)
Definition stale (s : ValueTypes) (d : option Device) (o : Value) : bool :=
  isTensor (s o) && negb (optDevice_eqb (device_of s o) d).

(** While the flag is set, the candidate is a CPU device. *)
Definition flag_means_cpu (st : ScanState) : Prop :=
  only_seen_cpu_zerodim st = true ->
  exists c, device st = Some c /\ is_cpu c = true.

(** The candidate is [d] and can no longer be replaced. *)
Definition locked (st : ScanState) (d : Device) : Prop :=
  seen_any_device st = true /\ device st = Some d.

(** A step of the traversal settles on a list of values: once it has
    returned, running it again on any table that agrees with its result on
    those values returns at once, with the table and the accumulator as they
    are. *)
Definition settles (m : bool -> M bool) (footprint : list Value) : Prop :=
  forall c s c' s', m c s = Done c' s' ->
  forall t, agree_on footprint s' t ->
  forall c0, m c0 t = Done c0 t.

(** The node kinds that [processNode] returns from without a rule. *)
Definition skip_kind (k : NodeKind) : bool :=
  match k with
  | prim_Loop | prim_CallMethod | prim_CallFunction
  | prim_Constant | prim_ListConstruct | prim_ListUnpack => true
  | _ => false
  end.

Section Selection.

Variable isSubtypeOf : JitType -> JitType -> bool.
Variable toIValue : Value -> option IValue.

(** A parameter accepts a device when the device type is a subtype of its
    declared type: the test of source line 102. *)
Definition accepts_device (a : Argument) : bool :=
  isSubtypeOf DeviceObjT (arg_type a).

(** The parameters the scan walks past before it selects one: those that do
    not accept a device, and those whose input is the constant [None]. *)
Fixpoint passed_over (n : Node) (i : nat) (pre : list Argument) : bool :=
  match pre with
  | [] => true
  | a :: rest =>
      (negb (accepts_device a)
       || match nth_error (n_inputs n) i with
          | Some inp =>
              match toIValue inp with
              | Some IVNone => true
              | _ => false
              end
          | None => false
          end)
      && passed_over n (S i) rest
  end.

End Selection.

(** Induction over the tree of nodes and blocks. *)
Section NodeInduction.

Variable P : Node -> Prop.
Variable Q : Block -> Prop.
Hypothesis P_node : forall kind ins outs blocks op,
  Forall Q blocks -> P (mkNode kind ins outs blocks op).
Hypothesis Q_block : forall nodes outs,
  Forall P nodes -> Q (mkBlock nodes outs).

Fixpoint Node_tree_ind (n : Node) : P n :=
  match n with
  | mkNode kind ins outs blocks op =>
      P_node kind ins outs blocks op
        ((fix all (bs : list Block) : Forall Q bs :=
            match bs with
            | [] => Forall_nil Q
            | b :: rest => Forall_cons (P := Q) b (Block_tree_ind b) (all rest)
            end) blocks)
  end
with Block_tree_ind (b : Block) : Q b :=
  match b with
  | mkBlock nodes outs =>
      Q_block nodes outs
        ((fix all (ns : list Node) : Forall P ns :=
            match ns with
            | [] => Forall_nil P
            | n :: rest => Forall_cons (P := P) n (Node_tree_ind n) (all rest)
            end) nodes)
  end.

End NodeInduction.

(** ** What the traversal reaches *)

(** The values the traversal can write at all: the outputs of a conditional
    and of an [aten] node with a resolved operator, where the traversal gets
    to them, which is at the top level and inside the first two blocks of a
    conditional. *)
Fixpoint written_node (n : Node) : list Value :=
  match n with
  | mkNode kind _ outs blocks op =>
      match kind with
      | prim_If =>
          match blocks with
          | b0 :: b1 :: _ => written_block b0 ++ written_block b1 ++ outs
          | _ => []
          end
      | aten _ => match op with Some _ => outs | None => [] end
      | _ => []
      end
  end
with written_block (b : Block) : list Value :=
  match b with
  | mkBlock ns _ => flat_map written_node ns
  end.

(** The outputs of the conditionals the traversal gets to. *)
Fixpoint join_outputs_node (n : Node) : list Value :=
  match n with
  | mkNode kind _ outs blocks _ =>
      match kind with
      | prim_If =>
          match blocks with
          | b0 :: b1 :: _ =>
              join_outputs_block b0 ++ join_outputs_block b1 ++ outs
          | _ => []
          end
      | _ => []
      end
  end
with join_outputs_block (b : Block) : list Value :=
  match b with
  | mkBlock ns _ => flat_map join_outputs_node ns
  end.

(** The accumulator [c] or-ed into the result of a call. *)
Definition with_flag (c : bool) (o : Outcome bool) : Outcome bool :=
  match o with
  | Done c0 s => Done (c || c0) s
  | Abort e s => Abort e s
  end.

Section Safety.

Variable isSubtypeOf : JitType -> JitType -> bool.

(** Every parameter that accepts a device has an input at its position. *)
Fixpoint args_in_range (n : Node) (i : nat) (args : list Argument) : bool :=
  match args with
  | [] => true
  | a :: rest =>
      (negb (isSubtypeOf DeviceObjT (arg_type a))
       || Nat.ltb i (length (n_inputs n)))
      && args_in_range n (S i) rest
  end.

(** What the pass expects of the nodes it gets to: a conditional has two
    blocks with as many exit values as it has outputs, and a tensor output
    wherever both exit values are tensors; an [aten] node with a resolved
    operator has an input for every device parameter of its schema. *)
Fixpoint safe_node (s : ValueTypes) (n : Node) : bool :=
  match n with
  | mkNode kind _ outs blocks op =>
      match kind with
      | prim_If =>
          match blocks with
          | b0 :: b1 :: _ =>
              safe_block s b0 && safe_block s b1
              && Nat.eqb (length (b_outputs b0)) (length (b_outputs b1))
              && Nat.eqb (length (b_outputs b0)) (length outs)
              && join_typed s (b_outputs b0) (b_outputs b1) outs
          | _ => false
          end
      | aten _ =>
          match op with
          | Some o => args_in_range n 0 (arguments (op_schema o))
          | None => true
          end
      | _ => true
      end
  end
with safe_block (s : ValueTypes) (b : Block) : bool :=
  match b with
  | mkBlock ns _ => forallb (safe_node s) ns
  end.

End Safety.

(** *** Further nodes and tables *)

Definition three_schema : FunctionSchema :=
  mkSchema [mkArgument "a" plainTensor; mkArgument "b" plainTensor;
            mkArgument "c" plainTensor].

(** Two zero-rank CPU scalars and a CUDA matrix, read in [four_types]. *)
Definition three_node : Node :=
  mkNode (aten "addcmul") [10; 11; 12] [14] []
    (Some (mkOperator three_schema)).

(** A CUDA matrix and a tensor whose device is not known. *)
Definition unknown_types : ValueTypes :=
  types_of [(12, tensor (Some cuda0) (Some 2%N));
            (13, tensor None (Some 2%N));
            (14, tensor (Some cuda0) (Some 2%N));
            (15, IntT)].

Definition zeros_schema : FunctionSchema :=
  mkSchema [mkArgument "size" IntT].

(** An operator without a tensor operand, read in [add_types]. *)
Definition zeros_node : Node :=
  mkNode (aten "zeros") [15] [14] [] (Some (mkOperator zeros_schema)).

(** [two_device_node] with both device parameters left as [None]. *)
Definition none_consts : Value -> option IValue :=
  consts_of [(20, IVNone); (21, IVNone)].

(** [aten::to] built with its device input missing. *)
Definition short_to_node : Node :=
  mkNode (aten "to") [1] [5] [] (Some (mkOperator to_schema)).

(** A graph with one operator, whose output is already on the CPU. *)
Definition relu_graph : Graph :=
  mkGraph (mkBlock
    [mkNode (aten "relu") [1] [6] [] (Some (mkOperator relu_schema))] [6]).

Definition relu_types : ValueTypes :=
  types_of [(1, tensor (Some cpu) (Some 2%N));
            (6, tensor (Some cpu) (Some 2%N))].

(** A matrix and a list, as the exit values of the two branches. *)
Definition mixed_join_types : ValueTypes :=
  types_of [(1, tensor (Some cpu) (Some 2%N));
            (2, ListT IntT);
            (3, tensor (Some cuda0) (Some 2%N))].

(** A loop whose body holds an operator; the traversal does not enter it. *)
Definition loop_graph : Graph :=
  mkGraph (mkBlock
    [mkNode prim_Loop [0; 12] [14]
       [mkBlock [mkNode (aten "relu") [12] [16] []
                   (Some (mkOperator relu_schema))] [16]] None]
    [14]).

Definition loop_types : ValueTypes :=
  types_of [(0, IntT);
            (12, tensor (Some cuda0) (Some 2%N));
            (14, tensor None (Some 2%N));
            (16, tensor None (Some 2%N))].

(** * Properties *)

(** ** Equality tests and list predicates *)

Ltac in_list :=
  repeat (simpl; rewrite ?in_app_iff); simpl; intuition auto.

Lemma DeviceType_eqb_eq (a b : DeviceType) : DeviceType_eqb a b = true <-> a = b.
Proof. destruct a, b; simpl; split; intro H; congruence. Qed.

Lemma Device_eqb_eq (a b : Device) : Device_eqb a b = true <-> a = b.
Proof.
  destruct a as [ta ia], b as [tb ib]; unfold Device_eqb; simpl.
  rewrite andb_true_iff, DeviceType_eqb_eq, Z.eqb_eq.
  split; [intros [-> ->]; reflexivity | intro H; inversion H; auto].
Qed.

Lemma Device_eqb_refl (a : Device) : Device_eqb a a = true.
Proof. apply Device_eqb_eq; reflexivity. Qed.

Lemma optDevice_eqb_eq (a b : option Device) : optDevice_eqb a b = true <-> a = b.
Proof.
  destruct a, b; simpl; try (split; congruence).
  rewrite Device_eqb_eq; split; congruence.
Qed.

Lemma optDevice_eqb_refl (a : option Device) : optDevice_eqb a a = true.
Proof. apply optDevice_eqb_eq; reflexivity. Qed.

Lemma memb_In (v : Value) (l : list Value) : memb v l = true <-> In v l.
Proof.
  unfold memb; rewrite existsb_exists; split.
  - intros [x [Hin Heq]]; apply Nat.eqb_eq in Heq; subst; assumption.
  - intro Hin; exists v; split; [assumption | apply Nat.eqb_refl].
Qed.

Lemma disjointb_spec (l1 l2 : list Value) :
  disjointb l1 l2 = true <-> forall v, In v l1 -> ~ In v l2.
Proof.
  unfold disjointb; rewrite forallb_forall; split; intros H v Hin.
  - specialize (H v Hin); rewrite negb_true_iff in H.
    intro Hin2; apply memb_In in Hin2; congruence.
  - rewrite negb_true_iff; destruct (memb v l2) eqn:E; [|reflexivity].
    apply memb_In in E; exfalso; exact (H v Hin E).
Qed.

Lemma nodupb_spec (l : list Value) : nodupb l = true <-> NoDup l.
Proof.
  induction l as [|v l IH]; simpl.
  - split; [constructor | reflexivity].
  - rewrite andb_true_iff, negb_true_iff, IH; split.
    + intros [Hm Hn]; constructor; [|assumption].
      intro Hin; apply memb_In in Hin; congruence.
    + intro H; inversion H; subst; split; [|assumption].
      destruct (memb v l) eqn:E; [|reflexivity].
      apply memb_In in E; contradiction.
Qed.

Lemma setType_same (s : ValueTypes) (v : Value) (t : JitType) :
  setType s v t v = t.
Proof. unfold setType; rewrite Nat.eqb_refl; reflexivity. Qed.

Lemma setType_other (s : ValueTypes) (v w : Value) (t : JitType) :
  w <> v -> setType s v t w = s w.
Proof.
  intro H; unfold setType; destruct (Nat.eqb w v) eqn:E; [|reflexivity].
  apply Nat.eqb_eq in E; contradiction.
Qed.

Lemma isTensor_true (t : JitType) :
  isTensor t = true <-> exists ty, t = TensorT ty.
Proof.
  split.
  - destruct t; simpl; try discriminate; eauto.
  - intros [ty ->]; reflexivity.
Qed.

Lemma cast_Some (t : JitType) (ty : TensorType) :
  cast_TensorType t = Some ty <-> t = TensorT ty.
Proof. destruct t; simpl; split; congruence. Qed.

(** ** What a write can change *)

Lemma redeviced_refl (t : JitType) : redeviced t t.
Proof. left; reflexivity. Qed.

Lemma redeviced_trans (t1 t2 t3 : JitType) :
  redeviced t1 t2 -> redeviced t2 t3 -> redeviced t1 t3.
Proof.
  intros [-> | [ty [d [-> ->]]]] [-> | [ty' [d' [E ->]]]].
  - left; reflexivity.
  - right; eauto.
  - right; eauto.
  - right; exists ty, d'; split; [reflexivity|].
    inversion E; subst; reflexivity.
Qed.

Lemma redeviced_isTensor (t t' : JitType) :
  redeviced t t' -> isTensor t' = isTensor t.
Proof. intros [-> | [ty [d [-> ->]]]]; reflexivity. Qed.

Lemma redeviced_not_tensor (t t' : JitType) :
  redeviced t t' -> isTensor t = false -> t' = t.
Proof. intros [-> | [ty [d [-> ->]]]]; [reflexivity | discriminate]. Qed.

Lemma odc_refl (s : ValueTypes) : only_devices_change s s.
Proof. intro v; apply redeviced_refl. Qed.

Lemma odc_trans (s1 s2 s3 : ValueTypes) :
  only_devices_change s1 s2 -> only_devices_change s2 s3 ->
  only_devices_change s1 s3.
Proof. intros H1 H2 v; eapply redeviced_trans; [apply H1 | apply H2]. Qed.

Lemma odc_isTensor (s s' : ValueTypes) (v : Value) :
  only_devices_change s s' -> isTensor (s' v) = isTensor (s v).
Proof. intro H; apply redeviced_isTensor, H. Qed.

Lemma odc_bind {A B} (m : M A) (k : A -> M B) (s : ValueTypes) :
  only_devices_change s (final (m s)) ->
  (forall a s1, only_devices_change s1 (final (k a s1))) ->
  only_devices_change s (final (bind m k s)).
Proof.
  intros Hm Hk; unfold bind; destruct (m s) as [a s1 | e s1]; simpl in *.
  - eapply odc_trans; [exact Hm | apply Hk].
  - exact Hm.
Qed.

Lemma preserves_ret {A} (a : A) (v : Value) : preserves (ret a) v.
Proof. intro s; reflexivity. Qed.

Lemma preserves_throw {A} (e : Error) (v : Value) : preserves (@throw A e) v.
Proof. intro s; reflexivity. Qed.

Lemma preserves_bind {A B} (m : M A) (k : A -> M B) (v : Value) :
  preserves m v -> (forall a, preserves (k a) v) -> preserves (bind m k) v.
Proof.
  intros Hm Hk s; unfold bind; specialize (Hm s).
  destruct (m s) as [a s1 | e s1]; simpl in *.
  - rewrite Hk; exact Hm.
  - exact Hm.
Qed.

Lemma bind_Done {A B} (m : M A) (k : A -> M B) (s s' : ValueTypes) (b : B) :
  bind m k s = Done b s' ->
  exists a s1, m s = Done a s1 /\ k a s1 = Done b s'.
Proof.
  unfold bind; destruct (m s) as [a s1 | e s1]; [eauto | discriminate].
Qed.

(** ** [setDeviceType] *)

Lemma setDeviceType_tensor (v : Value) (d : option Device) (s : ValueTypes)
    (ty : TensorType) :
  s v = TensorT ty ->
  setDeviceType v d s =
    if optDevice_eqb (tt_device ty) d then Done false s
    else Done true (setType s v (TensorT (withDevice ty d))).
Proof.
  intro H; unfold setDeviceType; rewrite H; simpl.
  destruct (optDevice_eqb (tt_device ty) d); reflexivity.
Qed.

Lemma setDeviceType_not_tensor (v : Value) (d : option Device) (s : ValueTypes) :
  isTensor (s v) = false -> setDeviceType v d s = Abort ExpectFailed s.
Proof.
  unfold setDeviceType, isTensor; destruct (cast_TensorType (s v));
    [discriminate | reflexivity].
Qed.

Lemma setDeviceType_noop (v : Value) (d : option Device) (s : ValueTypes)
    (ty : TensorType) :
  s v = TensorT ty -> tt_device ty = d -> setDeviceType v d s = Done false s.
Proof.
  intros H E; rewrite (setDeviceType_tensor _ _ _ _ H), E, optDevice_eqb_refl.
  reflexivity.
Qed.

Lemma setDeviceType_preserves (v w : Value) (d : option Device) :
  w <> v -> preserves (setDeviceType v d) w.
Proof.
  intros Hne s; unfold setDeviceType.
  destruct (cast_TensorType (s v)); [|reflexivity].
  destruct (negb _); simpl; [apply setType_other; assumption | reflexivity].
Qed.

Lemma setDeviceType_odc (v : Value) (d : option Device) (s : ValueTypes) :
  only_devices_change s (final (setDeviceType v d s)).
Proof.
  unfold setDeviceType; destruct (cast_TensorType (s v)) as [ty|] eqn:E;
    [|apply odc_refl].
  apply cast_Some in E.
  destruct (negb _); simpl; [|apply odc_refl].
  intro w; destruct (Nat.eq_dec w v) as [->|Hne].
  - rewrite setType_same, E; right; eauto.
  - rewrite setType_other by assumption; apply redeviced_refl.
Qed.

(** After a write that returned, the value is a tensor on the device that
    was written, and a second write of the same device changes nothing. *)
Lemma setDeviceType_post (v : Value) (d : option Device) (s s' : ValueTypes)
    (c : bool) :
  setDeviceType v d s = Done c s' ->
  exists ty, s' v = TensorT ty /\ tt_device ty = d.
Proof.
  unfold setDeviceType; destruct (cast_TensorType (s v)) as [ty|] eqn:E;
    [|discriminate].
  apply cast_Some in E.
  destruct (negb (optDevice_eqb (tt_device ty) d)) eqn:Hc; simpl; intro H;
    inversion H; subst.
  - rewrite setType_same; eexists; split; reflexivity.
  - exists ty; split; [assumption|].
    apply negb_false_iff, optDevice_eqb_eq in Hc; assumption.
Qed.

Lemma setDeviceType_twice (v : Value) (d : option Device) (s s' : ValueTypes)
    (c : bool) :
  setDeviceType v d s = Done c s' -> setDeviceType v d s' = Done false s'.
Proof.
  intro H; destruct (setDeviceType_post _ _ _ _ _ H) as [ty [E1 E2]].
  exact (setDeviceType_noop _ _ _ _ E1 E2).
Qed.

(** ** [setReturnsToDevice] *)

Lemma setReturnsLoop_total (outs : list Value) (d : option Device) :
  forall c s, exists c' s', setReturnsLoop outs d c s = Done c' s'.
Proof.
  induction outs as [|o outs IH]; intros c s; simpl.
  - unfold ret; eauto.
  - destruct (cast_TensorType (s o)) as [ty|] eqn:E; [|apply IH].
    apply cast_Some in E; unfold bind.
    rewrite (setDeviceType_tensor _ _ _ _ E).
    destruct (optDevice_eqb (tt_device ty) d); apply IH.
Qed.

Lemma setReturnsLoop_preserves (outs : list Value) (d : option Device)
    (v : Value) :
  ~ In v outs -> forall c, preserves (setReturnsLoop outs d c) v.
Proof.
  induction outs as [|o outs IH]; intros Hn c; simpl.
  - apply preserves_ret.
  - intro s; destruct (cast_TensorType (s o)).
    + apply preserves_bind.
      * apply setDeviceType_preserves; intro; subst; apply Hn; left; reflexivity.
      * intro a; apply IH; intro; apply Hn; right; assumption.
    + apply IH; intro; apply Hn; right; assumption.
Qed.

Lemma setReturnsLoop_odc (outs : list Value) (d : option Device) :
  forall c s, only_devices_change s (final (setReturnsLoop outs d c s)).
Proof.
  induction outs as [|o outs IH]; intros c s; simpl.
  - apply odc_refl.
  - destruct (cast_TensorType (s o)); [|apply IH].
    apply odc_bind; [apply setDeviceType_odc | intros; apply IH].
Qed.

Lemma setReturnsLoop_post (outs : list Value) (d : option Device) :
  forall c s c' s', setReturnsLoop outs d c s = Done c' s' ->
  forall o ty, In o outs -> s' o = TensorT ty -> tt_device ty = d.
Proof.
  induction outs as [|o outs IH]; intros c s c' s' H o' ty Hin Hty;
    [destruct Hin|].
  simpl in H.
  destruct (in_dec Nat.eq_dec o' outs) as [Hrest | Hnot].
  - destruct (cast_TensorType (s o)); [|eapply IH; eassumption].
    apply bind_Done in H; destruct H as [a [s1 [_ H]]].
    eapply IH; eassumption.
  - destruct Hin as [-> | Hin]; [|contradiction].
    destruct (cast_TensorType (s o')) as [ty0|] eqn:E.
    + apply bind_Done in H; destruct H as [a [s1 [H1 H]]].
      destruct (setDeviceType_post _ _ _ _ _ H1) as [ty1 [E1 E2]].
      pose proof (setReturnsLoop_preserves _ d _ Hnot (c || a) s1) as Hp.
      rewrite H in Hp; simpl in Hp; congruence.
    + pose proof (setReturnsLoop_preserves _ d _ Hnot c s) as Hp.
      rewrite H in Hp; simpl in Hp.
      rewrite Hp in Hty; rewrite Hty in E; discriminate.
Qed.

Lemma setReturnsLoop_noop (outs : list Value) (d : option Device)
    (t : ValueTypes) :
  (forall o ty, In o outs -> t o = TensorT ty -> tt_device ty = d) ->
  forall c, setReturnsLoop outs d c t = Done c t.
Proof.
  induction outs as [|o outs IH]; intros H c; simpl; [reflexivity|].
  destruct (cast_TensorType (t o)) as [ty|] eqn:E.
  - apply cast_Some in E; unfold bind.
    rewrite (setDeviceType_noop o d t ty E (H o ty (or_introl eq_refl) E)).
    rewrite orb_false_r; apply IH; intros; eapply H; [right|]; eassumption.
  - apply IH; intros; eapply H; [right|]; eassumption.
Qed.

Lemma setReturnsLoop_changed (outs : list Value) (d : option Device) :
  forall c s c' s', setReturnsLoop outs d c s = Done c' s' ->
  c' = c || existsb (stale s d) outs.
Proof.
  induction outs as [|o outs IH]; intros c s c' s' H; simpl in H.
  - inversion H; subst; simpl; rewrite orb_false_r; reflexivity.
  - simpl; unfold stale at 1, device_of, isTensor.
    destruct (cast_TensorType (s o)) as [ty|] eqn:E; simpl.
    + apply cast_Some in E; unfold bind in H.
      rewrite (setDeviceType_tensor _ _ _ _ E) in H.
      destruct (optDevice_eqb (tt_device ty) d); simpl.
      * apply IH in H; rewrite orb_false_r in H; exact H.
      * apply IH in H; rewrite H, orb_true_r; reflexivity.
    + eapply IH; eassumption.
Qed.

(** ** The scan of [propWithNoDevice] *)

Lemma scanInputs_ext (s t : ValueTypes) (inps : list Value) :
  agree_on inps s t -> forall st, scanInputs t inps st = scanInputs s inps st.
Proof.
  induction inps as [|v inps IH]; intros H st; simpl; [reflexivity|].
  rewrite (H v (or_introl eq_refl)).
  assert (Hrest : agree_on inps s t) by (intros w Hw; apply H; right; exact Hw).
  destruct (cast_TensorType (s v)); [|apply IH; assumption].
  destruct (scanStep st _); [apply IH; assumption | reflexivity].
Qed.

Lemma is_cpu_zerodim_cpu (t : TensorType) :
  is_cpu_zerodim t = true -> exists c, tt_device t = Some c /\ is_cpu c = true.
Proof.
  unfold is_cpu_zerodim; rewrite andb_true_iff; intros [_ H].
  destruct (tt_device t) as [c|]; [eauto | discriminate].
Qed.

Lemma scanStep_flag (st st' : ScanState) (t : TensorType) :
  flag_means_cpu st -> scanStep st t = Some st' -> flag_means_cpu st'.
Proof.
  unfold scanStep; intros Hf H.
  destruct (seen_any_device st).
  - destruct (negb _ && negb _).
    + destruct (only_seen_cpu_zerodim st); inversion H; subst.
      intro Hc; discriminate.
    + inversion H; subst; assumption.
  - inversion H; subst; intro Hc; simpl in *.
    apply is_cpu_zerodim_cpu; assumption.
Qed.

Lemma scanStep_keeps_lock (st st' : ScanState) (t : TensorType) (d : Device) :
  flag_means_cpu st -> is_cpu d = false -> locked st d ->
  scanStep st t = Some st' -> locked st' d.
Proof.
  unfold scanStep; intros Hf Hd [Hs Hdev] H; rewrite Hs in H.
  destruct (negb _ && negb _).
  - destruct (only_seen_cpu_zerodim st) eqn:Hflag; [|discriminate].
    destruct (Hf Hflag) as [c [Hc1 Hc2]]; congruence.
  - inversion H; subst; split; assumption.
Qed.

Lemma scanStep_locks (st st' : ScanState) (t : TensorType) (d : Device) :
  flag_means_cpu st -> tt_device t = Some d -> is_cpu d = false ->
  scanStep st t = Some st' -> locked st' d.
Proof.
  unfold scanStep; intros Hf Ht Hd H.
  assert (Hz : is_cpu_zerodim t = false).
  { unfold is_cpu_zerodim; rewrite Ht, Hd; apply andb_false_r. }
  destruct (seen_any_device st) eqn:Hs.
  - rewrite Hz in H; simpl in H; rewrite andb_true_r in H.
    destruct (optDevice_eqb (device st) (tt_device t)) eqn:E; simpl in H.
    + inversion H; subst; split; [assumption|].
      apply optDevice_eqb_eq in E; congruence.
    + destruct (only_seen_cpu_zerodim st); inversion H; subst.
      split; [reflexivity | assumption].
  - inversion H; subst; split; [reflexivity | assumption].
Qed.

Lemma scanInputs_locks (s : ValueTypes) (inps : list Value) (d : Device) :
  is_cpu d = false ->
  forall st st', flag_means_cpu st -> scanInputs s inps st = Some st' ->
  (locked st d -> locked st' d) /\
  (forall v t, In v inps -> s v = TensorT t -> tt_device t = Some d ->
     locked st' d).
Proof.
  intro Hd; induction inps as [|i inps IH]; intros st st' Hf H; simpl in H.
  - inversion H; subst; split; [auto | intros v t []].
  - destruct (cast_TensorType (s i)) as [ti|] eqn:E.
    + apply cast_Some in E.
      destruct (scanStep st ti) as [st1|] eqn:Hstep; [|discriminate].
      pose proof (scanStep_flag _ _ _ Hf Hstep) as Hf1.
      destruct (IH _ _ Hf1 H) as [Hkeep Hnew]; split.
      * intro Hl; apply Hkeep.
        exact (scanStep_keeps_lock st st1 ti d Hf Hd Hl Hstep).
      * intros v t [-> | Hin] Hv Ht; [|eapply Hnew; eassumption].
        apply Hkeep; rewrite E in Hv; inversion Hv; subst.
        eapply (scanStep_locks st); eassumption.
    + destruct (IH _ _ Hf H) as [Hkeep Hnew]; split; [assumption|].
      intros v t [-> | Hin] Hv Ht; [|eapply Hnew; eassumption].
      rewrite Hv in E; discriminate.
Qed.

Lemma scanInit_flag : flag_means_cpu scanInit.
Proof. intro H; discriminate. Qed.

(** Two operands on distinct devices, neither of them a CPU device, always
    end the scan in the early return. *)
Lemma scanInputs_conflict (s : ValueTypes) (inps : list Value)
    (x y : Value) (tx ty : TensorType) (d1 d2 : Device) :
  In x inps -> In y inps -> s x = TensorT tx -> s y = TensorT ty ->
  tt_device tx = Some d1 -> tt_device ty = Some d2 -> d1 <> d2 ->
  is_cpu d1 = false -> is_cpu d2 = false ->
  scanInputs s inps scanInit = None.
Proof.
  intros Hx Hy Htx Hty Hd1 Hd2 Hne Hc1 Hc2.
  destruct (scanInputs s inps scanInit) as [st|] eqn:H; [|reflexivity].
  destruct (scanInputs_locks s inps d1 Hc1 _ _ scanInit_flag H) as [_ H1].
  destruct (scanInputs_locks s inps d2 Hc2 _ _ scanInit_flag H) as [_ H2].
  destruct (H1 _ _ Hx Htx Hd1) as [_ E1].
  destruct (H2 _ _ Hy Hty Hd2) as [_ E2].
  congruence.
Qed.

Lemma setReturnsToDevice_sets (n : Node) (d : option Device) (s : ValueTypes) :
  exists c s',
    setReturnsToDevice n d s = Done c s' /\
    (forall o, In o (n_outputs n) -> isTensor (s o) = true ->
       isTensor (s' o) = true /\ device_of s' o = d) /\
    (forall v, ~ In v (n_outputs n) -> s' v = s v) /\
    only_devices_change s s' /\
    c = existsb (stale s d) (n_outputs n).
Proof.
  unfold setReturnsToDevice.
  destruct (setReturnsLoop_total (n_outputs n) d false s) as [c [s' H]].
  exists c, s'; split; [exact H|].
  pose proof (setReturnsLoop_odc (n_outputs n) d false s) as Hodc.
  rewrite H in Hodc; simpl in Hodc.
  repeat split.
  - rewrite (odc_isTensor _ _ o Hodc); assumption.
  - assert (Ht : isTensor (s' o) = true)
      by (rewrite (odc_isTensor _ _ o Hodc); assumption).
    apply isTensor_true in Ht; destruct Ht as [ty Hty].
    unfold device_of; rewrite Hty; simpl.
    eapply setReturnsLoop_post; eassumption.
  - intros v Hv.
    pose proof (setReturnsLoop_preserves _ d _ Hv false s) as Hp.
    rewrite H in Hp; exact Hp.
  - exact Hodc.
  - apply setReturnsLoop_changed in H; exact H.
Qed.

(** ** Operand resolution: conflicts *)

(** C6.  A node that has two tensor operands on two distinct known devices,
    neither of them a CPU device, is resolved to unknown whatever else it is
    given: [propWithNoDevice] returns, every tensor-typed output carries the
    device [None] afterwards, whatever it carried before, and the result is
    [true] exactly when some tensor output carried a device. *)
Theorem propWithNoDevice_conflict_unknown (n : Node) (s : ValueTypes)
    (x y : Value) (tx ty : TensorType) (d1 d2 : Device) :
  In x (n_inputs n) -> In y (n_inputs n) ->
  s x = TensorT tx -> s y = TensorT ty ->
  tt_device tx = Some d1 -> tt_device ty = Some d2 ->
  d1 <> d2 -> is_cpu d1 = false -> is_cpu d2 = false ->
  exists c s',
    propWithNoDevice n s = Done c s' /\
    (forall o, In o (n_outputs n) -> isTensor (s o) = true ->
       isTensor (s' o) = true /\ device_of s' o = None) /\
    c = existsb (stale s None) (n_outputs n).
Proof.
  intros Hx Hy Htx Hty Hd1 Hd2 Hne Hc1 Hc2.
  unfold propWithNoDevice.
  rewrite (scanInputs_conflict s (n_inputs n) x y tx ty d1 d2
             Hx Hy Htx Hty Hd1 Hd2 Hne Hc1 Hc2).
  destruct (setReturnsToDevice_sets n None s) as [c [s' [H [Hset [_ [_ Hc]]]]]].
  exists c, s'; auto.
Qed.

Lemma propWithNoDevice_conflict_unknown_witness :
  exists c s',
    propWithNoDevice add_node add_types = Done c s' /\
    (forall o, In o (n_outputs add_node) -> isTensor (add_types o) = true ->
       isTensor (s' o) = true /\ device_of s' o = None) /\
    c = existsb (stale add_types None) (n_outputs add_node).
Proof.
  apply (propWithNoDevice_conflict_unknown add_node add_types 12 13
           (mkTensorType (Some cuda0) (Some 2%N) (Some kFloat))
           (mkTensorType (Some cuda1) (Some 2%N) (Some kFloat))
           cuda0 cuda1).
  - simpl; auto.
  - simpl; auto.
  - reflexivity.
  - reflexivity.
  - reflexivity.
  - reflexivity.
  - discriminate.
  - reflexivity.
  - reflexivity.
Defined.

(** The scan of section 4.2 on four tensor operands, step by step: two
    zero-rank CPU operands leave the flag set; an operand on another device
    [d1] that is not such a scalar replaces the candidate and clears the
    flag; a further operand on [d2] then ends the scan in the early return. *)
Lemma scanInputs_zero_rank_chain (s : ValueTypes) (A B C D : Value)
    (ta tb tc td : TensorType) (d1 d2 : Device) :
  s A = TensorT ta -> s B = TensorT tb -> s C = TensorT tc -> s D = TensorT td ->
  is_cpu_zerodim ta = true -> is_cpu_zerodim tb = true ->
  tt_device tc = Some d1 -> is_cpu_zerodim tc = false ->
  tt_device td = Some d2 -> is_cpu_zerodim td = false ->
  d1 <> d2 -> tt_device ta <> Some d1 ->
  scanInputs s [A; B] scanInit = Some (mkScan (tt_device ta) true true) /\
  scanInputs s [A; B; C] scanInit = Some (mkScan (Some d1) true false) /\
  scanInputs s [A; B; C; D] scanInit = None.
Proof.
  intros HA HB HC HD Za Zb Hd1 Zc Hd2 Zd Hne Hna.
  assert (E1 : optDevice_eqb (tt_device ta) (Some d1) = false).
  { destruct (optDevice_eqb _ _) eqn:E; [|reflexivity].
    apply optDevice_eqb_eq in E; contradiction. }
  assert (E2 : Device_eqb d1 d2 = false).
  { destruct (Device_eqb d1 d2) eqn:E; [|reflexivity].
    apply Device_eqb_eq in E; contradiction. }
  simpl; rewrite HA, HB, HC, HD; simpl.
  unfold scanStep; simpl.
  rewrite Za, Zb, andb_false_r; simpl.
  rewrite Hd1, Zc, E1; simpl.
  rewrite Hd2, Zd; simpl; rewrite E2; simpl.
  repeat split; reflexivity.
Qed.

(** C5.  The scan on the operands [A], [B] zero-rank CPU scalars, [C] a
    matrix on the same CPU device and [D] a matrix on a CUDA device: the flag
    is still set when [D] is reached, and the output is put on the device of
    [D] instead of being resolved to unknown. *)
Theorem propWithNoDevice_cpu_matrix_overwritten :
  scanInputs four_types_cpu [10; 11; 12] scanInit = Some (mkScan (Some cpu) true true) /\
  exists s',
    propWithNoDevice four_node four_types_cpu = Done true s' /\
    device_of s' 14 = Some cuda0.
Proof.
  split; [reflexivity|].
  eexists; split; reflexivity.
Qed.

(** ** The join of a conditional *)

Lemma mergeLoop_preserves (v : Value) :
  forall dst src1 src2 c, ~ In v dst -> preserves (mergeLoop src1 src2 dst c) v.
Proof.
  induction dst as [|d dst IH]; intros src1 src2 c Hn.
  - destruct src1, src2; apply preserves_ret.
  - destruct src1 as [|a src1]; [apply preserves_throw|].
    destruct src2 as [|b src2]; [apply preserves_throw|].
    assert (Hd : v <> d) by (intro; subst; apply Hn; left; reflexivity).
    assert (Hr : ~ In v dst) by (intro; apply Hn; right; assumption).
    intro s; simpl.
    destruct (cast_TensorType (s a)); [|apply IH; assumption].
    destruct (cast_TensorType (s b)); [|apply IH; assumption].
    apply preserves_bind; [|intro; apply IH; assumption].
    destruct (match tt_device t with Some _ => _ | None => _ end);
      apply setDeviceType_preserves; assumption.
Qed.

Lemma mergeLoop_odc :
  forall dst src1 src2 c s,
    only_devices_change s (final (mergeLoop src1 src2 dst c s)).
Proof.
  induction dst as [|d dst IH]; intros src1 src2 c s.
  - destruct src1, src2; apply odc_refl.
  - destruct src1 as [|a src1]; [apply odc_refl|].
    destruct src2 as [|b src2]; [apply odc_refl|].
    simpl.
    destruct (cast_TensorType (s a)); [|apply IH].
    destruct (cast_TensorType (s b)); [|apply IH].
    apply odc_bind; [|intros; apply IH].
    destruct (match tt_device t with Some _ => _ | None => _ end);
      apply setDeviceType_odc.
Qed.

(** The device chosen at one position is [code_join] of the two devices. *)
Lemma join_choice (t1 t2 : TensorType) :
  (if match tt_device t1, tt_device t2 with
      | Some x, Some y => negb (Device_eqb x y)
      | _, _ => true
      end
   then None else tt_device t1) = code_join (tt_device t1) (tt_device t2).
Proof.
  unfold code_join; destruct (tt_device t1), (tt_device t2); try reflexivity.
  destruct (Device_eqb d d0); reflexivity.
Qed.

Lemma mergeLoop_step (a b d : Value) (src1 src2 dst : list Value) (c : bool)
    (s : ValueTypes) (ta tb : TensorType) :
  s a = TensorT ta -> s b = TensorT tb ->
  mergeLoop (a :: src1) (b :: src2) (d :: dst) c s =
  bind (setDeviceType d (code_join (tt_device ta) (tt_device tb)))
       (fun c1 => mergeLoop src1 src2 dst (c || c1)) s.
Proof.
  intros Ha Hb; simpl; rewrite Ha, Hb; simpl.
  rewrite <- join_choice.
  destruct (match tt_device ta with Some _ => _ | None => _ end); reflexivity.
Qed.

Lemma mergeLoop_skip (a b d : Value) (src1 src2 dst : list Value) (c : bool)
    (s : ValueTypes) :
  isTensor (s a) && isTensor (s b) = false ->
  mergeLoop (a :: src1) (b :: src2) (d :: dst) c s =
  mergeLoop src1 src2 dst c s.
Proof.
  unfold isTensor; intro H; simpl.
  destruct (cast_TensorType (s a)); [|reflexivity].
  destruct (cast_TensorType (s b)); [discriminate | reflexivity].
Qed.

Lemma both_tensor_cases (s : ValueTypes) (a b : Value) :
  (exists ta tb, s a = TensorT ta /\ s b = TensorT tb) \/
  isTensor (s a) && isTensor (s b) = false.
Proof.
  destruct (isTensor (s a)) eqn:Ea; [|right; reflexivity].
  destruct (isTensor (s b)) eqn:Eb; [|right; reflexivity].
  apply isTensor_true in Ea, Eb; destruct Ea as [ta Ea], Eb as [tb Eb].
  left; eauto.
Qed.

Lemma mergeLoop_noop (t : ValueTypes) :
  forall dst src1 src2, joined t src1 src2 dst ->
  forall c, mergeLoop src1 src2 dst c t = Done c t.
Proof.
  induction dst as [|d dst IH]; intros src1 src2 Hj c.
  - destruct src1, src2; reflexivity.
  - destruct src1 as [|a src1]; [destruct Hj|].
    destruct src2 as [|b src2]; [destruct Hj|].
    destruct Hj as [Hhead Hrest].
    destruct (both_tensor_cases t a b) as [[ta [tb [Ha Hb]]] | Hskip].
    + rewrite (mergeLoop_step _ _ _ _ _ _ _ _ _ _ Ha Hb); unfold bind.
      destruct (Hhead ta tb Ha Hb) as [td [Hd Hdev]].
      rewrite (setDeviceType_noop _ _ _ _ Hd Hdev), orb_false_r.
      apply IH; assumption.
    + rewrite (mergeLoop_skip _ _ _ _ _ _ _ _ Hskip); apply IH; assumption.
Qed.

Lemma joined_agree (s t : ValueTypes) :
  forall dst src1 src2,
    agree_on (src1 ++ src2 ++ dst) s t ->
    joined s src1 src2 dst -> joined t src1 src2 dst.
Proof.
  induction dst as [|d dst IH]; intros src1 src2 Hag Hj.
  - destruct src1, src2; exact I.
  - destruct src1 as [|a src1]; [destruct Hj|].
    destruct src2 as [|b src2]; [destruct Hj|].
    destruct Hj as [Hhead Hrest]; split.
    + rewrite (Hag a), (Hag b), (Hag d); [exact Hhead | | | ]; in_list.
    + apply IH; [|assumption].
      intros v Hv; apply Hag; rewrite !in_app_iff in Hv; in_list.
Qed.

Lemma mergeLoop_post :
  forall dst src1 src2, NoDup dst ->
  (forall v, In v dst -> ~ In v src1 /\ ~ In v src2) ->
  forall c s c' s', mergeLoop src1 src2 dst c s = Done c' s' ->
  joined s' src1 src2 dst.
Proof.
  induction dst as [|d dst IH]; intros src1 src2 Hnd Hdis c s c' s' H.
  - destruct src1, src2; exact I.
  - destruct src1 as [|a src1]; [discriminate|].
    destruct src2 as [|b src2]; [discriminate|].
    inversion Hnd as [|? ? Hd Hnd']; subst.
    assert (Hdis' : forall v, In v dst -> ~ In v src1 /\ ~ In v src2).
    { intros v Hv; destruct (Hdis v (or_intror Hv)) as [H1 H2].
      split; intro; [apply H1 | apply H2]; right; assumption. }
    assert (Ha : ~ In a (d :: dst)).
    { intro Hin; destruct (Hdis a Hin) as [H1 _]; apply H1; left; reflexivity. }
    assert (Hb : ~ In b (d :: dst)).
    { intro Hin; destruct (Hdis b Hin) as [_ H2]; apply H2; left; reflexivity. }
    pose proof (mergeLoop_preserves a (d :: dst) (a :: src1) (b :: src2) c Ha s) as Pa.
    pose proof (mergeLoop_preserves b (d :: dst) (a :: src1) (b :: src2) c Hb s) as Pb.
    rewrite H in Pa, Pb; simpl in Pa, Pb.
    destruct (both_tensor_cases s a b) as [[ta [tb [Ea Eb]]] | Hskip].
    + rewrite (mergeLoop_step _ _ _ _ _ _ _ _ _ _ Ea Eb) in H.
      apply bind_Done in H; destruct H as [c1 [s1 [H1 H]]].
      split; [|eapply IH; eassumption].
      intros ta' tb' Ea' Eb'.
      rewrite Pa, Ea in Ea'; rewrite Pb, Eb in Eb'.
      inversion Ea'; inversion Eb'; subst.
      destruct (setDeviceType_post _ _ _ _ _ H1) as [td [Etd Edev]].
      pose proof (mergeLoop_preserves d dst src1 src2 (c || c1) Hd s1) as Pd.
      rewrite H in Pd; simpl in Pd.
      exists td; split; [congruence | assumption].
    + rewrite (mergeLoop_skip _ _ _ _ _ _ _ _ Hskip) in H.
      split; [|eapply IH; eassumption].
      intros ta' tb' Ea' Eb'; rewrite Pa in Ea'; rewrite Pb in Eb'.
      unfold isTensor in Hskip; rewrite Ea', Eb' in Hskip; discriminate.
Qed.

Lemma joined_nth (s : ValueTypes) :
  forall dst src1 src2 i a b d ta tb,
    joined s src1 src2 dst ->
    nth_error src1 i = Some a -> nth_error src2 i = Some b ->
    nth_error dst i = Some d ->
    s a = TensorT ta -> s b = TensorT tb ->
    exists td, s d = TensorT td /\
               tt_device td = code_join (tt_device ta) (tt_device tb).
Proof.
  induction dst as [|d0 dst IH]; intros src1 src2 i a b d ta tb Hj H1 H2 H3 Ha Hb.
  - destruct i; discriminate.
  - destruct src1 as [|a0 src1]; [destruct Hj|].
    destruct src2 as [|b0 src2]; [destruct Hj|].
    destruct Hj as [Hhead Hrest]; destruct i as [|i]; simpl in *.
    + inversion H1; inversion H2; inversion H3; subst; auto.
    + eapply IH; eassumption.
Qed.

Lemma join_typed_ext (s t : ValueTypes) :
  (forall v, isTensor (t v) = isTensor (s v)) ->
  forall dst src1 src2, join_typed t src1 src2 dst = join_typed s src1 src2 dst.
Proof.
  intro H; induction dst as [|d dst IH]; intros src1 src2; [reflexivity|].
  destruct src1 as [|a src1]; [reflexivity|].
  destruct src2 as [|b src2]; [reflexivity|].
  simpl; rewrite !H, IH; reflexivity.
Qed.

Lemma mergeLoop_typed :
  forall dst src1 src2 c s,
    length src1 = length dst -> length src2 = length dst ->
    join_typed s src1 src2 dst = true ->
    exists c' s', mergeLoop src1 src2 dst c s = Done c' s'.
Proof.
  induction dst as [|d dst IH]; intros src1 src2 c s L1 L2 Hj.
  - destruct src1, src2; simpl; unfold ret; eauto.
  - destruct src1 as [|a src1]; [discriminate|].
    destruct src2 as [|b src2]; [discriminate|].
    simpl in L1, L2, Hj; apply andb_true_iff in Hj; destruct Hj as [Hh Hj].
    destruct (both_tensor_cases s a b) as [[ta [tb [Ea Eb]]] | Hskip].
    + rewrite (mergeLoop_step _ _ _ _ _ _ _ _ _ _ Ea Eb); unfold bind.
      unfold isTensor in Hh; rewrite Ea, Eb in Hh; simpl in Hh.
      fold (isTensor (s d)) in Hh.
      apply isTensor_true in Hh; destruct Hh as [td Ed].
      pose proof (setDeviceType_odc d (code_join (tt_device ta) (tt_device tb)) s)
        as Hodc.
      rewrite (setDeviceType_tensor _ _ _ _ Ed) in *.
      destruct (optDevice_eqb _ _); simpl in Hodc.
      * apply IH; auto.
      * apply IH; auto.
        rewrite (join_typed_ext s); [assumption|].
        intro v; apply (odc_isTensor _ _ v Hodc).
    + rewrite (mergeLoop_skip _ _ _ _ _ _ _ _ Hskip); apply IH; auto.
Qed.

Lemma mergeLoop_untyped :
  forall dst src1 src2 c s,
    length src1 = length dst -> length src2 = length dst ->
    join_typed s src1 src2 dst = false ->
    exists s', mergeLoop src1 src2 dst c s = Abort ExpectFailed s'.
Proof.
  induction dst as [|d dst IH]; intros src1 src2 c s L1 L2 Hj.
  - destruct src1, src2; discriminate.
  - destruct src1 as [|a src1]; [discriminate|].
    destruct src2 as [|b src2]; [discriminate|].
    simpl in L1, L2, Hj.
    destruct (both_tensor_cases s a b) as [[ta [tb [Ea Eb]]] | Hskip].
    + rewrite (mergeLoop_step _ _ _ _ _ _ _ _ _ _ Ea Eb); unfold bind.
      unfold isTensor at 1 2 in Hj; rewrite Ea, Eb in Hj; simpl in Hj.
      destruct (isTensor (s d)) eqn:Ed; simpl in Hj.
      * apply isTensor_true in Ed; destruct Ed as [td Ed].
        pose proof (setDeviceType_odc d (code_join (tt_device ta) (tt_device tb)) s)
          as Hodc.
        rewrite (setDeviceType_tensor _ _ _ _ Ed) in *.
        destruct (optDevice_eqb _ _); simpl in Hodc.
        -- apply IH; auto.
        -- apply IH; auto.
           rewrite (join_typed_ext s); [assumption|].
           intro v; apply (odc_isTensor _ _ v Hodc).
      * rewrite (setDeviceType_not_tensor _ _ _ Ed); eauto.
    + rewrite (mergeLoop_skip _ _ _ _ _ _ _ _ Hskip).
      rewrite Hskip in Hj; simpl in Hj; apply IH; auto.
Qed.

Lemma mergeAndApply_lengths (src1 src2 dst : list Value) :
  length src1 = length src2 -> length src1 = length dst ->
  mergeAndApplyTensorProps src1 src2 dst = mergeLoop src1 src2 dst false.
Proof.
  intros L1 L2; unfold mergeAndApplyTensorProps.
  rewrite <- L1, <- L2, !Nat.eqb_refl; reflexivity.
Qed.

Lemma mergeAndApply_Done (src1 src2 dst : list Value) (s s' : ValueTypes)
    (c : bool) :
  mergeAndApplyTensorProps src1 src2 dst s = Done c s' ->
  length src1 = length src2 /\ length src1 = length dst /\
  mergeLoop src1 src2 dst false s = Done c s'.
Proof.
  unfold mergeAndApplyTensorProps.
  destruct (Nat.eqb (length src1) (length src2)) eqn:E1; simpl; [|discriminate].
  destruct (Nat.eqb (length src1) (length dst)) eqn:E2; simpl; [|discriminate].
  apply Nat.eqb_eq in E1, E2; auto.
Qed.

Lemma mergeAndApply_preserves (src1 src2 dst : list Value) (v : Value) :
  ~ In v dst -> preserves (mergeAndApplyTensorProps src1 src2 dst) v.
Proof.
  intro Hn; unfold mergeAndApplyTensorProps.
  destruct (negb _); [apply preserves_throw|].
  destruct (negb _); [apply preserves_throw|].
  apply mergeLoop_preserves; assumption.
Qed.

Lemma mergeAndApply_odc (src1 src2 dst : list Value) (s : ValueTypes) :
  only_devices_change s (final (mergeAndApplyTensorProps src1 src2 dst s)).
Proof.
  unfold mergeAndApplyTensorProps.
  destruct (negb _); [apply odc_refl|].
  destruct (negb _); [apply odc_refl|].
  apply mergeLoop_odc.
Qed.

(** C2, as stated, fails: the true branch ends in a zero-rank tensor on the
    CPU, the false branch in a matrix on a CUDA device.  The merge of
    section 4.1 gives the CUDA device; the code writes unknown. *)
Lemma join_has_no_zero_rank_exception :
  exists t1 t2 c s',
    join_types 1 = TensorT t1 /\ join_types 2 = TensorT t2 /\
    is_cpu_zerodim t1 = true /\ is_cpu_zerodim t2 = false /\
    spec_merge t1 t2 = Some cuda0 /\
    mergeAndApplyTensorProps [1] [2] [3] join_types = Done c s' /\
    device_of s' 3 = None /\
    device_of s' 3 <> spec_merge t1 t2.
Proof.
  do 4 eexists.
  split; [reflexivity|]. split; [reflexivity|].
  split; [reflexivity|]. split; [reflexivity|].
  split; [reflexivity|]. split; [reflexivity|].
  split; [reflexivity | discriminate].
Qed.

(** C2, amended.  When the join of a conditional returns, every output at a
    position where both exit values are tensors is a tensor whose device is
    the common device of the two exit values when both are known and equal,
    and unknown in every other case; the rank of an exit value plays no
    part.  The outputs are distinct values, none of them an exit value. *)
Theorem join_writes_common_device (src1 src2 dst : list Value)
    (s s' : ValueTypes) (c : bool) :
  NoDup dst ->
  (forall v, In v dst -> ~ In v src1 /\ ~ In v src2) ->
  mergeAndApplyTensorProps src1 src2 dst s = Done c s' ->
  forall i a b d ta tb,
    nth_error src1 i = Some a -> nth_error src2 i = Some b ->
    nth_error dst i = Some d ->
    s a = TensorT ta -> s b = TensorT tb ->
    isTensor (s' d) = true /\
    device_of s' d =
      match tt_device ta, tt_device tb with
      | Some x, Some y => if Device_eqb x y then Some x else None
      | _, _ => None
      end.
Proof.
  intros Hnd Hdis H i a b d ta tb H1 H2 H3 Ha Hb.
  apply mergeAndApply_Done in H; destruct H as [_ [_ H]].
  pose proof (mergeLoop_post dst src1 src2 Hnd Hdis false s c s' H) as Hj.
  assert (Pa : s' a = s a).
  { pose proof (mergeLoop_preserves a dst src1 src2 false) as P.
    unfold preserves in P; specialize (P ltac:(
      intro Hin; destruct (Hdis a Hin) as [Hn _]; apply Hn;
      eapply nth_error_In; eassumption) s).
    rewrite H in P; exact P. }
  assert (Pb : s' b = s b).
  { pose proof (mergeLoop_preserves b dst src1 src2 false) as P.
    unfold preserves in P; specialize (P ltac:(
      intro Hin; destruct (Hdis b Hin) as [_ Hn]; apply Hn;
      eapply nth_error_In; eassumption) s).
    rewrite H in P; exact P. }
  rewrite <- Pa in Ha; rewrite <- Pb in Hb.
  destruct (joined_nth s' dst src1 src2 i a b d ta tb Hj H1 H2 H3 Ha Hb)
    as [td [Ed Edev]].
  unfold device_of, isTensor; rewrite Ed; simpl; split; [reflexivity|].
  exact Edev.
Qed.

Lemma join_writes_common_device_witness :
  exists c s',
    mergeAndApplyTensorProps [1] [2] [3] join_types = Done c s' /\
    isTensor (s' 3) = true /\ device_of s' 3 = None.
Proof.
  do 2 eexists; split; [reflexivity|].
  apply (join_writes_common_device [1] [2] [3] join_types _ true)
    with (i := 0) (a := 1) (b := 2)
         (ta := mkTensorType (Some cpu) (Some 0%N) (Some kFloat))
         (tb := mkTensorType (Some cuda0) (Some 2%N) (Some kFloat)).
  - apply nodupb_spec; reflexivity.
  - intros v [<- | []]; simpl; split; intros [E | []]; discriminate.
  - reflexivity.
  - reflexivity.
  - reflexivity.
  - reflexivity.
  - reflexivity.
  - reflexivity.
Defined.

(** C10.  With exit values and outputs of equal number, the join returns
    exactly when every position whose two exit values are tensors has a
    tensor as its output.  Otherwise [expect<TensorType>] throws in the
    write to the first offending output, and no value that is not a tensor
    has been touched. *)
Theorem join_total_iff_typed (src1 src2 dst : list Value) (s : ValueTypes) :
  length src1 = length src2 -> length src1 = length dst ->
  (join_typed s src1 src2 dst = true ->
     exists c s', mergeAndApplyTensorProps src1 src2 dst s = Done c s') /\
  (join_typed s src1 src2 dst = false ->
     exists s', mergeAndApplyTensorProps src1 src2 dst s = Abort ExpectFailed s' /\
                forall v, isTensor (s v) = false -> s' v = s v).
Proof.
  intros L1 L2; rewrite (mergeAndApply_lengths src1 src2 dst L1 L2).
  assert (L3 : length src2 = length dst) by congruence.
  split; intro Hj.
  - apply mergeLoop_typed; assumption.
  - destruct (mergeLoop_untyped dst src1 src2 false s L2 L3 Hj) as [s' H].
    exists s'; split; [exact H|].
    intros v Hv.
    pose proof (mergeLoop_odc dst src1 src2 false s) as Hodc.
    rewrite H in Hodc; simpl in Hodc.
    exact (redeviced_not_tensor _ _ (Hodc v) Hv).
Qed.

Lemma join_total_iff_typed_witness :
  (join_typed bad_join_types [1] [2] [3] = true ->
     exists c s', mergeAndApplyTensorProps [1] [2] [3] bad_join_types = Done c s') /\
  (join_typed bad_join_types [1] [2] [3] = false ->
     exists s',
       mergeAndApplyTensorProps [1] [2] [3] bad_join_types = Abort ExpectFailed s' /\
       forall v, isTensor (bad_join_types v) = false -> s' v = bad_join_types v).
Proof.
  apply (join_total_iff_typed [1] [2] [3] bad_join_types); reflexivity.
Defined.

(** ** The operator rule *)

Section OperatorRule.

Variable isSubtypeOf : JitType -> JitType -> bool.
Variable toIValue : Value -> option IValue.

Local Notation "'accepts'" := (accepts_device isSubtypeOf).
Local Notation "'passed'" := (passed_over isSubtypeOf toIValue).
Local Notation "'argsLoop'" := (argumentsLoop isSubtypeOf toIValue).
Local Notation "'deviceProp'" := (defaultDeviceProp isSubtypeOf toIValue).
Local Notation "'atenOps'" := (processAtenOps isSubtypeOf toIValue).
Local Notation "'doNode'" := (processNode isSubtypeOf toIValue).
Local Notation "'doBlock'" := (processBlock isSubtypeOf toIValue).
Local Notation "'doNodes'" := (processNodes isSubtypeOf toIValue).

Lemma argumentsLoop_passes (n : Node) (post : list Argument) (s : ValueTypes) :
  forall pre i, passed n i pre = true ->
  argsLoop n i (pre ++ post) s = argsLoop n (i + length pre) post s.
Proof.
  induction pre as [|a pre IH]; intros i H; simpl.
  - rewrite Nat.add_0_r; reflexivity.
  - simpl in H; apply andb_true_iff in H; destruct H as [Ha Hrest].
    rewrite Nat.add_succ_r, <- Nat.add_succ_l.
    unfold accepts_device in Ha.
    destruct (isSubtypeOf DeviceObjT (arg_type a)); simpl in Ha;
      [|apply IH; assumption].
    destruct (nth_error (n_inputs n) i) as [inp|]; [|discriminate].
    destruct (toIValue inp) as [[| | | |]|]; try discriminate.
    simpl; apply IH; assumption.
Qed.

Lemma not_accepting_passed (n : Node) :
  forall pre i, forallb (fun b => negb (accepts b)) pre = true ->
  passed n i pre = true.
Proof.
  induction pre as [|a pre IH]; intros i H; simpl in *; [reflexivity|].
  apply andb_true_iff in H; destruct H as [Ha Hrest].
  rewrite Ha, IH by assumption; reflexivity.
Qed.

Lemma argumentsLoop_selected (n : Node) (i : nat) (a : Argument)
    (post : list Argument) (s : ValueTypes) :
  accepts a = true ->
  argsLoop n i (a :: post) s =
  match nth_error (n_inputs n) i with
  | None => Abort OutOfRange s
  | Some inp =>
      match toIValue inp with
      | None => Done false s
      | Some IVNone => argsLoop n (S i) post s
      | Some (IVDevice d) => setReturnsToDevice n (Some d) s
      | Some _ => Done false s
      end
  end.
Proof.
  unfold accepts_device; intro Ha; simpl; rewrite Ha.
  destruct (nth_error (n_inputs n) i) as [inp|]; [|reflexivity].
  destruct (toIValue inp) as [[| | | |]|]; reflexivity.
Qed.

Lemma defaultDeviceProp_schema (n : Node) (op : Operator) :
  maybeOperator n = Some op ->
  deviceProp n = argsLoop n 0 (arguments (op_schema op)).
Proof.
  intro H; unfold defaultDeviceProp, maybeSchema; rewrite H; reflexivity.
Qed.

(** C3, amended.  The scan selects by the opposite test: a parameter is
    selected when the device type is a subtype of its declared type, so a
    declared supertype of the device type, such as the optional device type,
    is selected.  Every parameter before the first such one is walked past
    without a look at its input, and the input of that first one decides. *)
Theorem defaultDeviceProp_selects_supertype (n : Node) (op : Operator)
    (pre : list Argument) (a : Argument) (post : list Argument)
    (s : ValueTypes) :
  maybeOperator n = Some op ->
  arguments (op_schema op) = pre ++ a :: post ->
  forallb (fun b => negb (isSubtypeOf DeviceObjT (arg_type b))) pre = true ->
  isSubtypeOf DeviceObjT (arg_type a) = true ->
  deviceProp n s =
  match nth_error (n_inputs n) (length pre) with
  | None => Abort OutOfRange s
  | Some inp =>
      match toIValue inp with
      | None => Done false s
      | Some IVNone => argsLoop n (S (length pre)) post s
      | Some (IVDevice d) => setReturnsToDevice n (Some d) s
      | Some _ => Done false s
      end
  end.
Proof.
  intros Hop Hargs Hpre Ha.
  rewrite (defaultDeviceProp_schema n op Hop), Hargs.
  rewrite (argumentsLoop_passes n (a :: post) s pre 0
             (not_accepting_passed n pre 0 Hpre)).
  apply argumentsLoop_selected; exact Ha.
Qed.

(** C7, amended.  When every parameter before position [i] either does not
    accept a device or has the constant [None] as its input, and the
    parameter at [i] accepts a device and its input is the constant device
    [e], then the rule returns and every tensor output is on [e], whatever
    the devices of the operands are; the result tells whether an output was
    on another device before. *)
Theorem explicit_device_overrides (n : Node) (op : Operator)
    (pre : list Argument) (a : Argument) (post : list Argument)
    (inp : Value) (e : Device) (s : ValueTypes) :
  maybeOperator n = Some op ->
  arguments (op_schema op) = pre ++ a :: post ->
  passed n 0 pre = true ->
  isSubtypeOf DeviceObjT (arg_type a) = true ->
  nth_error (n_inputs n) (length pre) = Some inp ->
  toIValue inp = Some (IVDevice e) ->
  exists c s',
    deviceProp n s = Done c s' /\
    (forall o, In o (n_outputs n) -> isTensor (s o) = true ->
       isTensor (s' o) = true /\ device_of s' o = Some e) /\
    c = existsb (stale s (Some e)) (n_outputs n).
Proof.
  intros Hop Hargs Hpre Ha Hinp Hval.
  rewrite (defaultDeviceProp_schema n op Hop), Hargs.
  rewrite (argumentsLoop_passes n (a :: post) s pre 0 Hpre).
  rewrite (argumentsLoop_selected n (0 + length pre) a post s Ha).
  simpl; rewrite Hinp, Hval.
  destruct (setReturnsToDevice_sets n (Some e) s)
    as [c [s' [H [Hset [_ [_ Hc]]]]]].
  exists c, s'; auto.
Qed.

(** C8.  When the parameter the scan selects (every parameter before it
    either does not accept a device or has the constant [None] as input) has
    an input that is not a constant, or a constant that is neither [None]
    nor a device, the rule returns [false] and the types of all values are
    what they were; [processAtenOps] leaves the accumulator of the pass as
    it was. *)
Theorem undetermined_device_aborts (n : Node) (op : Operator)
    (pre : list Argument) (a : Argument) (post : list Argument)
    (inp : Value) (s : ValueTypes) :
  maybeOperator n = Some op ->
  arguments (op_schema op) = pre ++ a :: post ->
  passed n 0 pre = true ->
  isSubtypeOf DeviceObjT (arg_type a) = true ->
  nth_error (n_inputs n) (length pre) = Some inp ->
  (toIValue inp = None \/
   exists v, toIValue inp = Some v /\ isNone v = false /\ isDevice v = false) ->
  deviceProp n s = Done false s /\
  forall changed_, atenOps n changed_ s = Done changed_ s.
Proof.
  intros Hop Hargs Hpre Ha Hinp Hval.
  assert (H : deviceProp n s = Done false s).
  { rewrite (defaultDeviceProp_schema n op Hop), Hargs.
    rewrite (argumentsLoop_passes n (a :: post) s pre 0 Hpre).
    rewrite (argumentsLoop_selected n (0 + length pre) a post s Ha).
    simpl; rewrite Hinp.
    destruct Hval as [-> | [v [-> [Hn Hd]]]]; [reflexivity|].
    destruct v; try discriminate; reflexivity. }
  split; [exact H|].
  intro changed_; unfold processAtenOps, bind, ret; rewrite Hop, H.
  rewrite orb_false_r; reflexivity.
Qed.

(** ** The traversal *)

Lemma processBlock_eq (b : Block) (changed_ : bool) (s : ValueTypes) :
  doBlock b changed_ s = doNodes (b_nodes b) changed_ s.
Proof.
  destruct b as [ns outs]; simpl; revert changed_ s.
  induction ns as [|n ns IH]; intros c s; [reflexivity|].
  simpl; unfold bind; destruct (doNode n c s); [apply IH | reflexivity].
Qed.

Lemma processNode_If (ins outs : list Value) (blocks : list Block)
    (op : option Operator) (changed_ : bool) :
  doNode (mkNode prim_If ins outs blocks op) changed_ =
  processIf isSubtypeOf toIValue (mkNode prim_If ins outs blocks op) changed_.
Proof. reflexivity. Qed.

(** C9.  A loop node, a call node of either kind, a constant node, a
    list-construction node and a list-destructuring node are left by
    [processNode] without a single write: the types of all values, the
    outputs of the node among them, and the accumulator of the pass are what
    they were, whatever the types of the inputs are. *)
Theorem skip_classes_untouched (n : Node) (changed_ : bool) (s : ValueTypes) :
  skip_kind (n_kind n) = true ->
  doNode n changed_ s = Done changed_ s.
Proof.
  destruct n as [kind ins outs blocks op]; simpl; intro H.
  destruct kind; try discriminate; try reflexivity;
    destruct (negb _); reflexivity.
Qed.

(** ** What the traversal can write *)

Lemma propWithNoDevice_preserves (n : Node) (v : Value) :
  ~ In v (n_outputs n) -> preserves (propWithNoDevice n) v.
Proof.
  intros Hn s; unfold propWithNoDevice.
  destruct (scanInputs s (n_inputs n) scanInit);
    apply setReturnsLoop_preserves; assumption.
Qed.

Lemma argumentsLoop_preserves (n : Node) (v : Value) :
  ~ In v (n_outputs n) ->
  forall args i, preserves (argsLoop n i args) v.
Proof.
  intro Hn; induction args as [|a args IH]; intro i; simpl.
  - apply propWithNoDevice_preserves; assumption.
  - destruct (isSubtypeOf DeviceObjT (arg_type a)); [|apply IH].
    destruct (nth_error (n_inputs n) i) as [inp|]; [|apply preserves_throw].
    destruct (toIValue inp) as [iv|]; [|apply preserves_ret].
    destruct (isNone iv); [apply IH|].
    destruct (negb (isDevice iv)); [apply preserves_ret|].
    destruct (toDevice iv); [|apply preserves_throw].
    apply setReturnsLoop_preserves; assumption.
Qed.

Lemma processAtenOps_preserves (n : Node) (changed_ : bool) (v : Value) :
  ~ In v (n_outputs n) -> preserves (atenOps n changed_) v.
Proof.
  intro Hn; unfold processAtenOps, defaultDeviceProp, maybeSchema.
  destruct (maybeOperator n); simpl; [|apply preserves_ret].
  apply preserves_bind; [|intro; apply preserves_ret].
  apply argumentsLoop_preserves; assumption.
Qed.

Lemma propWithNoDevice_odc (n : Node) (s : ValueTypes) :
  only_devices_change s (final (propWithNoDevice n s)).
Proof.
  unfold propWithNoDevice.
  destruct (scanInputs s (n_inputs n) scanInit); apply setReturnsLoop_odc.
Qed.

Lemma argumentsLoop_odc (n : Node) :
  forall args i s, only_devices_change s (final (argsLoop n i args s)).
Proof.
  induction args as [|a args IH]; intros i s; simpl.
  - apply propWithNoDevice_odc.
  - destruct (isSubtypeOf DeviceObjT (arg_type a)); [|apply IH].
    destruct (nth_error (n_inputs n) i) as [inp|]; [|apply odc_refl].
    destruct (toIValue inp) as [iv|]; [|apply odc_refl].
    destruct (isNone iv); [apply IH|].
    destruct (negb (isDevice iv)); [apply odc_refl|].
    destruct (toDevice iv); [|apply odc_refl].
    apply setReturnsLoop_odc.
Qed.

Lemma processAtenOps_odc (n : Node) (changed_ : bool) (s : ValueTypes) :
  only_devices_change s (final (atenOps n changed_ s)).
Proof.
  unfold processAtenOps, defaultDeviceProp, maybeSchema.
  destruct (maybeOperator n); simpl; [|apply odc_refl].
  apply odc_bind; [apply argumentsLoop_odc | intros; apply odc_refl].
Qed.

Lemma processNodes_preserves (ns : list Node) (v : Value) :
  Forall (fun n => forall c, ~ In v (defs_node n) -> preserves (doNode n c) v) ns ->
  ~ In v (flat_map defs_node ns) ->
  forall c, preserves (doNodes ns c) v.
Proof.
  induction 1 as [|n ns Hn _ IH]; intros Hv c; simpl.
  - apply preserves_ret.
  - simpl in Hv; rewrite in_app_iff in Hv.
    apply preserves_bind; [apply Hn | intro; apply IH]; tauto.
Qed.

Lemma processNode_preserves_tree (v : Value) :
  forall n, forall c, ~ In v (defs_node n) -> preserves (doNode n c) v.
Proof.
  apply (Node_tree_ind
    (fun n => forall c, ~ In v (defs_node n) -> preserves (doNode n c) v)
    (fun b => forall c, ~ In v (defs_block b) -> preserves (doBlock b c) v)).
  - intros kind ins outs blocks op Hbs c Hv.
    simpl in Hv; rewrite in_app_iff in Hv.
    assert (Hout : ~ In v outs) by tauto.
    destruct kind; try apply preserves_ret;
      try (intro s; simpl; destruct (negb _); reflexivity).
    + (* prim_If *)
      rewrite processNode_If; unfold processIf; simpl.
      destruct blocks as [|b0 [|b1 bs]]; try apply preserves_throw.
      inversion Hbs as [|? ? Q0 Hbs']; subst.
      inversion Hbs' as [|? ? Q1 _]; subst.
      simpl in Hv; rewrite !in_app_iff in Hv.
      apply preserves_bind; [apply Q0; tauto | intro c1].
      apply preserves_bind; [apply Q1; tauto | intro c2].
      apply preserves_bind; [|intro; apply preserves_ret].
      apply mergeAndApply_preserves; assumption.
    + (* aten *)
      intro s; simpl; destruct (negb _); [reflexivity|].
      apply processAtenOps_preserves; assumption.
  - intros nodes outs Hns c Hv s.
    rewrite processBlock_eq; simpl.
    apply processNodes_preserves; assumption.
Qed.

Lemma processNodes_preserves_defs (ns : list Node) (v : Value) (c : bool) :
  ~ In v (flat_map defs_node ns) -> preserves (doNodes ns c) v.
Proof.
  intro Hv; apply processNodes_preserves; [|assumption].
  apply Forall_forall; intros n _; apply processNode_preserves_tree.
Qed.

Lemma processBlock_preserves (b : Block) (v : Value) (c : bool) :
  ~ In v (defs_block b) -> preserves (doBlock b c) v.
Proof.
  intros Hv s; rewrite processBlock_eq.
  destruct b as [ns outs]; simpl in *.
  apply processNodes_preserves_defs; assumption.
Qed.

(** A returned call leaves the values outside a list as they were. *)
Lemma Done_agree {A} (m : M A) (l : list Value) (s s' : ValueTypes) (a : A) :
  (forall v, In v l -> preserves m v) -> m s = Done a s' -> agree_on l s s'.
Proof.
  intros Hp H v Hv; specialize (Hp v Hv s); rewrite H in Hp; exact Hp.
Qed.

(** ** A second visit changes nothing *)

Lemma setReturnsToDevice_settles (n : Node) (d : option Device)
    (s s' t : ValueTypes) (c : bool) :
  setReturnsToDevice n d s = Done c s' ->
  agree_on (n_outputs n) s' t ->
  setReturnsToDevice n d t = Done false t.
Proof.
  unfold setReturnsToDevice; intros H Hag.
  apply setReturnsLoop_noop; intros o ty Ho Hty.
  rewrite (Hag o Ho) in Hty.
  exact (setReturnsLoop_post _ _ _ _ _ _ H o ty Ho Hty).
Qed.

Lemma propWithNoDevice_settles (n : Node) (s s' t : ValueTypes) (c : bool) :
  (forall v, In v (n_inputs n) -> ~ In v (n_outputs n)) ->
  propWithNoDevice n s = Done c s' ->
  agree_on (n_inputs n ++ n_outputs n) s' t ->
  propWithNoDevice n t = Done false t.
Proof.
  intros Hdis H Hag.
  assert (Hin : agree_on (n_inputs n) s t).
  { intros v Hv; rewrite (Hag v) by (apply in_or_app; left; exact Hv).
    pose proof (propWithNoDevice_preserves n v (Hdis v Hv) s) as Hp.
    rewrite H in Hp; exact Hp. }
  unfold propWithNoDevice in *.
  rewrite (scanInputs_ext s t (n_inputs n) Hin).
  assert (Hout : agree_on (n_outputs n) s' t)
    by (intros v Hv; apply Hag, in_or_app; right; exact Hv).
  destruct (scanInputs s (n_inputs n) scanInit);
    eapply setReturnsToDevice_settles; eassumption.
Qed.

Lemma argumentsLoop_settles (n : Node) (s s' t : ValueTypes) :
  (forall v, In v (n_inputs n) -> ~ In v (n_outputs n)) ->
  agree_on (n_inputs n ++ n_outputs n) s' t ->
  forall args i c,
    argsLoop n i args s = Done c s' -> argsLoop n i args t = Done false t.
Proof.
  intros Hdis Hag; induction args as [|a args IH]; intros i c H; simpl in *.
  - eapply propWithNoDevice_settles; eassumption.
  - destruct (isSubtypeOf DeviceObjT (arg_type a)); [|eapply IH; eassumption].
    destruct (nth_error (n_inputs n) i) as [inp|]; [|discriminate].
    destruct (toIValue inp) as [iv|]; [|reflexivity].
    destruct (isNone iv); [eapply IH; eassumption|].
    destruct (negb (isDevice iv)); [reflexivity|].
    destruct (toDevice iv); [|discriminate].
    eapply setReturnsToDevice_settles; [eassumption|].
    intros v Hv; apply Hag, in_or_app; right; exact Hv.
Qed.

Lemma processAtenOps_settles (n : Node) (s s' t : ValueTypes) (c c' : bool) :
  (forall v, In v (n_inputs n) -> ~ In v (n_outputs n)) ->
  agree_on (n_inputs n ++ n_outputs n) s' t ->
  atenOps n c s = Done c' s' ->
  forall c0, atenOps n c0 t = Done c0 t.
Proof.
  intros Hdis Hag H c0; unfold processAtenOps, defaultDeviceProp, maybeSchema in *.
  destruct (maybeOperator n) as [op|]; simpl in *; [|reflexivity].
  apply bind_Done in H; destruct H as [a [s1 [H1 H2]]].
  inversion H2; subst.
  unfold bind; rewrite (argumentsLoop_settles n s s' t Hdis Hag _ _ _ H1).
  unfold ret; rewrite orb_false_r; reflexivity.
Qed.

Lemma has_tensor_output_ext (n : Node) (s t : ValueTypes) :
  (forall v, In v (n_outputs n) -> isTensor (t v) = isTensor (s v)) ->
  has_tensor_output n t = has_tensor_output n s.
Proof.
  unfold has_tensor_output; induction (n_outputs n) as [|o outs IH];
    intro H; simpl; [reflexivity|].
  rewrite (H o (or_introl eq_refl)), IH; [reflexivity|].
  intros v Hv; apply H; right; exact Hv.
Qed.

Lemma wf_node_eq (kind : NodeKind) (ins outs : list Value)
    (blocks : list Block) (op : option Operator) :
  wf_node (mkNode kind ins outs blocks op) =
  nodupb outs
  && disjointb outs
       (ins ++ flat_map uses_block blocks ++ flat_map defs_block blocks)
  && wf_blocks blocks.
Proof. reflexivity. Qed.

Lemma wf_block_eq (ns : list Node) (outs : list Value) :
  wf_block (mkBlock ns outs) = wf_nodes ns.
Proof. reflexivity. Qed.

Lemma processNode_aten (name : string) (ins outs : list Value)
    (blocks : list Block) (op : option Operator) (c : bool) (s : ValueTypes) :
  doNode (mkNode (aten name) ins outs blocks op) c s =
  if negb (has_tensor_output (mkNode (aten name) ins outs blocks op) s)
  then Done c s
  else atenOps (mkNode (aten name) ins outs blocks op) c s.
Proof. reflexivity. Qed.

Lemma b_outputs_uses (b : Block) (v : Value) :
  In v (b_outputs b) -> In v (uses_block b).
Proof. destruct b as [ns outs]; simpl; intro H; apply in_or_app; auto. Qed.

Lemma processNodes_settle (ns : list Node) :
  Forall (fun n => wf_node n = true ->
                   settles (doNode n) (uses_node n ++ defs_node n)) ns ->
  wf_nodes ns = true ->
  settles (doNodes ns) (flat_map uses_node ns ++ flat_map defs_node ns).
Proof.
  induction 1 as [|n ns Hn _ IH]; intros Hwf c s c' s' H t Hag c0;
    [reflexivity|].
  simpl in Hwf; apply andb_true_iff in Hwf; destruct Hwf as [Hwf Hrest].
  apply andb_true_iff in Hwf; destruct Hwf as [Hwfn Hdis].
  rewrite disjointb_spec in Hdis.
  simpl in H; apply bind_Done in H; destruct H as [c1 [s1 [H1 H2]]].
  assert (Hfr : agree_on (uses_node n ++ defs_node n) s1 s').
  { apply (Done_agree (doNodes ns c1) _ s1 s' c'); [|exact H2].
    intros v Hv; apply processNodes_preserves_defs, Hdis; exact Hv. }
  simpl; unfold bind.
  rewrite (Hn Hwfn c s c1 s1 H1 t).
  - apply (IH Hrest c1 s1 c' s' H2 t).
    intros v Hv; apply Hag; simpl; rewrite !in_app_iff in *; tauto.
  - intros v Hv; rewrite <- (Hfr v Hv); apply Hag.
    simpl; rewrite !in_app_iff in *; tauto.
Qed.

Lemma processNode_settles_tree :
  forall n, wf_node n = true ->
            settles (doNode n) (uses_node n ++ defs_node n).
Proof.
  apply (Node_tree_ind
    (fun n => wf_node n = true ->
              settles (doNode n) (uses_node n ++ defs_node n))
    (fun b => wf_block b = true ->
              settles (doBlock b) (uses_block b ++ defs_block b))).
  - intros kind ins outs blocks op Hbs Hwf c s c' s' H t Hag c0.
    rewrite wf_node_eq in Hwf.
    apply andb_true_iff in Hwf; destruct Hwf as [Hwf Hwfb].
    apply andb_true_iff in Hwf; destruct Hwf as [Hnd Hout].
    rewrite nodupb_spec in Hnd; rewrite disjointb_spec in Hout.
    destruct kind; try reflexivity;
      try (simpl; destruct (negb _); reflexivity).
    + (* prim_If *)
      rewrite processNode_If in *; unfold processIf in *; simpl in *.
      destruct blocks as [|b0 [|b1 bs]]; try discriminate.
      inversion Hbs as [|? ? Q0 Hbs']; subst.
      inversion Hbs' as [|? ? Q1 _]; subst.
      simpl in Hwfb.
      apply andb_true_iff in Hwfb; destruct Hwfb as [Hwfb Hwfr].
      apply andb_true_iff in Hwfb; destruct Hwfb as [Hwf0 Hdis0].
      apply andb_true_iff in Hwfr; destruct Hwfr as [Hwfr _].
      apply andb_true_iff in Hwfr; destruct Hwfr as [Hwf1 _].
      rewrite disjointb_spec in Hdis0.
      apply bind_Done in H; destruct H as [c1 [s1 [H0 H]]].
      apply bind_Done in H; destruct H as [c2 [s2 [H1 H]]].
      apply bind_Done in H; destruct H as [x [s3 [H2 H]]].
      inversion H; subst c' s'; clear H.
      assert (Hsrc : forall v, In v outs ->
                ~ In v (b_outputs b0) /\ ~ In v (b_outputs b1)).
      { intros v Hv; specialize (Hout v Hv); simpl in Hout.
        rewrite !in_app_iff in Hout.
        split; intro Hb; apply b_outputs_uses in Hb; tauto. }
      assert (A2 : forall v, ~ In v outs -> s3 v = s2 v).
      { intros v Hv.
        pose proof (mergeAndApply_preserves (b_outputs b0) (b_outputs b1)
                      outs v Hv s2) as P.
        rewrite H2 in P; exact P. }
      assert (A1 : forall v, ~ In v (defs_block b1) -> s2 v = s1 v).
      { intros v Hv.
        pose proof (processBlock_preserves b1 v c1 Hv s1) as P.
        rewrite H1 in P; exact P. }
      assert (Hblk : forall v,
                In v (flat_map uses_block (b0 :: b1 :: bs)) \/
                In v (flat_map defs_block (b0 :: b1 :: bs)) -> ~ In v outs).
      { intros v Hv Ho; specialize (Hout v Ho).
        rewrite !in_app_iff in Hout; tauto. }
      assert (T0 : doBlock b0 c0 t = Done c0 t).
      { apply (Q0 Hwf0 c s c1 s1 H0 t); intros v Hv.
        rewrite (Hag v) by (simpl; rewrite !in_app_iff in *; tauto).
        rewrite A2 by (apply Hblk; simpl; rewrite !in_app_iff in *; tauto).
        apply A1; intro Hd; apply (Hdis0 v Hv).
        simpl; apply in_or_app; left; exact Hd. }
      assert (T1 : doBlock b1 c0 t = Done c0 t).
      { apply (Q1 Hwf1 c1 s1 c2 s2 H1 t); intros v Hv.
        rewrite (Hag v) by (simpl; rewrite !in_app_iff in *; tauto).
        apply A2, Hblk; simpl; rewrite !in_app_iff in *; tauto. }
      apply mergeAndApply_Done in H2; destruct H2 as [L1 [L2 H2]].
      pose proof (mergeLoop_post outs (b_outputs b0) (b_outputs b1)
                    Hnd Hsrc false s2 x s3 H2) as Hj.
      assert (Hjt : joined t (b_outputs b0) (b_outputs b1) outs).
      { apply (joined_agree s3 t); [|exact Hj].
        intros v Hv; apply Hag; rewrite !in_app_iff in Hv.
        simpl; rewrite !in_app_iff.
        destruct Hv as [Hv | [Hv | Hv]];
          [apply b_outputs_uses in Hv | apply b_outputs_uses in Hv |]; tauto. }
      unfold bind; rewrite T0, T1.
      rewrite (mergeAndApply_lengths _ _ _ L1 L2).
      rewrite (mergeLoop_noop t outs _ _ Hjt false); reflexivity.
    + (* aten *)
      rewrite processNode_aten in *.
      set (n := mkNode (aten name) ins outs blocks op) in *.
      assert (Hodc : only_devices_change s s').
      { destruct (negb (has_tensor_output n s)).
        - inversion H; subst; apply odc_refl.
        - pose proof (processAtenOps_odc n c s) as P.
          rewrite H in P; exact P. }
      assert (Hio : agree_on (n_inputs n ++ n_outputs n) s' t).
      { intros v Hv; apply Hag; simpl in *; rewrite !in_app_iff in *; tauto. }
      rewrite (has_tensor_output_ext n s t).
      * destruct (negb (has_tensor_output n s)); [reflexivity|].
        apply (processAtenOps_settles n s s' t c c'); [|exact Hio|exact H].
        intros v Hv Ho; apply (Hout v Ho); apply in_or_app; left; exact Hv.
      * intros v Hv; rewrite (Hio v) by (apply in_or_app; right; exact Hv).
        apply (odc_isTensor s s' v Hodc).
  - intros nodes outs Hns Hwf c s c' s' H t Hag c0.
    rewrite wf_block_eq in Hwf.
    rewrite processBlock_eq in *; simpl in *.
    apply (processNodes_settle nodes Hns Hwf c s c' s' H t).
    intros v Hv; apply Hag; rewrite !in_app_iff in *; tauto.
Qed.

Lemma processBlock_settles (b : Block) :
  wf_block b = true -> settles (doBlock b) (uses_block b ++ defs_block b).
Proof.
  intros Hwf c s c' s' H t Hag c0.
  destruct b as [ns outs]; rewrite wf_block_eq in Hwf.
  rewrite processBlock_eq in *; simpl in *.
  assert (Hall : Forall (fun n => wf_node n = true ->
                   settles (doNode n) (uses_node n ++ defs_node n)) ns)
    by (apply Forall_forall; intros n _; apply processNode_settles_tree).
  apply (processNodes_settle ns Hall Hwf c s c' s' H t).
  intros v Hv; apply Hag; rewrite !in_app_iff in *; tauto.
Qed.

(** C4.  On a graph in static single assignment form, after a run of the
    pass that returned, a second run returns [false] and leaves the type of
    every value as the first run left it.  A single write is idempotent as
    well: after [setDeviceType] has returned, the same call returns [false]
    and changes nothing. *)
Theorem pass_idempotent (g : Graph) (s s' : ValueTypes) (changed : bool) :
  wf_graph g = true ->
  run isSubtypeOf toIValue g s = Done changed s' ->
  run isSubtypeOf toIValue g s' = Done false s' /\
  (forall value device s0 c0 s1,
     setDeviceType value device s0 = Done c0 s1 ->
     setDeviceType value device s1 = Done false s1).
Proof.
  unfold run, wf_graph; intros Hwf H; split.
  - apply (processBlock_settles (g_block g) Hwf false s changed s' H s').
    intros v _; reflexivity.
  - intros value device s0 c0 s1; apply setDeviceType_twice.
Qed.

End OperatorRule.

(** ** The theorems above on concrete nodes and graphs *)

(** C3, as stated, fails: [Optional[Device]] is not a subtype of the device
    type, and yet the scan selects the parameter declared with it.  The
    output of [aten::to] is put on the device constant; a scan that selects
    subtypes of the device type would fall back on the operand and put it on
    the CPU. *)
Lemma optional_device_is_selected :
  jit_isSubtypeOf (OptionalT DeviceObjT) DeviceObjT = false /\
  jit_isSubtypeOf DeviceObjT (OptionalT DeviceObjT) = true /\
  device_of
    (final (defaultDeviceProp jit_isSubtypeOf to_consts to_node to_types)) 5
    = Some cuda0 /\
  device_of
    (final (spec_defaultDeviceProp jit_isSubtypeOf to_consts to_node to_types)) 5
    = Some cpu /\
  defaultDeviceProp jit_isSubtypeOf to_consts to_node to_types
    <> spec_defaultDeviceProp jit_isSubtypeOf to_consts to_node to_types.
Proof.
  repeat (split; [reflexivity|]).
  intro H.
  apply (f_equal (fun o => device_of (final o) 5)) in H.
  discriminate H.
Qed.

Lemma defaultDeviceProp_selects_supertype_witness :
  defaultDeviceProp jit_isSubtypeOf to_consts to_node to_types =
  setReturnsToDevice to_node (Some cuda0) to_types.
Proof.
  apply (defaultDeviceProp_selects_supertype jit_isSubtypeOf to_consts
           to_node (mkOperator to_schema)
           [mkArgument "self" plainTensor]
           (mkArgument "device" (OptionalT DeviceObjT)) [] to_types);
    reflexivity.
Defined.

(** C7, as stated, fails: the schema has a device parameter [b] bound to
    the constant CUDA device, but the device parameter [a] before it is not
    a constant.  The rule gives up at [a]: it returns [false] and the tensor
    output stays on the CPU. *)
Lemma later_device_parameter_ignored :
  maybeOperator two_device_node = Some (mkOperator two_device_schema) /\
  nth_error (arguments two_device_schema) 2 = Some (mkArgument "b" DeviceObjT) /\
  jit_isSubtypeOf DeviceObjT DeviceObjT = true /\
  nth_error (n_inputs two_device_node) 2 = Some 21 /\
  two_device_consts 21 = Some (IVDevice cuda0) /\
  In 5 (n_outputs two_device_node) /\
  isTensor (two_device_types 5) = true /\
  defaultDeviceProp jit_isSubtypeOf two_device_consts two_device_node
    two_device_types = Done false two_device_types /\
  device_of two_device_types 5 <> Some cuda0.
Proof.
  repeat (split; [reflexivity|]).
  split; [left; reflexivity|].
  repeat (split; [reflexivity|]).
  discriminate.
Qed.

Lemma explicit_device_overrides_witness :
  exists c s',
    defaultDeviceProp jit_isSubtypeOf two_device_consts' two_device_node
      two_device_types = Done c s' /\
    (forall o, In o (n_outputs two_device_node) ->
       isTensor (two_device_types o) = true ->
       isTensor (s' o) = true /\ device_of s' o = Some cuda0) /\
    c = existsb (stale two_device_types (Some cuda0))
          (n_outputs two_device_node).
Proof.
  apply (explicit_device_overrides jit_isSubtypeOf two_device_consts'
           two_device_node (mkOperator two_device_schema)
           [mkArgument "self" plainTensor; mkArgument "a" DeviceObjT]
           (mkArgument "b" DeviceObjT) [] 21 cuda0 two_device_types);
    reflexivity.
Defined.

Lemma undetermined_device_aborts_witness :
  defaultDeviceProp jit_isSubtypeOf union_consts to_node to_types
    = Done false to_types /\
  forall changed_,
    processAtenOps jit_isSubtypeOf union_consts to_node changed_ to_types
    = Done changed_ to_types.
Proof.
  apply (undetermined_device_aborts jit_isSubtypeOf union_consts
           to_node (mkOperator to_schema)
           [mkArgument "self" plainTensor]
           (mkArgument "device" (OptionalT DeviceObjT)) [] 4 to_types).
  - reflexivity.
  - reflexivity.
  - reflexivity.
  - reflexivity.
  - reflexivity.
  - right; exists (IVString "cuda:0"); repeat split; reflexivity.
Defined.

Lemma skip_classes_untouched_witness :
  processNode jit_isSubtypeOf no_consts loop_node false add_types
  = Done false add_types.
Proof.
  apply (skip_classes_untouched jit_isSubtypeOf no_consts loop_node false
           add_types).
  reflexivity.
Defined.

Lemma pass_idempotent_witness :
  exists changed s',
    run jit_isSubtypeOf to_consts small_graph small_types = Done changed s' /\
    run jit_isSubtypeOf to_consts small_graph s' = Done false s'.
Proof.
  do 2 eexists; split; [reflexivity|].
  apply (pass_idempotent jit_isSubtypeOf to_consts small_graph small_types
           _ true); reflexivity.
Defined.

(** C1.  The graph is one conditional whose two branches forward two CPU
    tensors and whose output has no device yet.  The join returns [true] and
    puts the output on the CPU; [processIf] drops that result, and the pass
    returns [false] although an annotation has changed. *)
Theorem run_drops_join_change :
  wf_graph if_graph = true /\
  exists s',
    mergeAndApplyTensorProps [1] [2] [3] if_types = Done true s' /\
    run jit_isSubtypeOf no_consts if_graph if_types = Done false s' /\
    device_of if_types 3 = None /\
    device_of s' 3 = Some cpu.
Proof.
  split; [reflexivity|].
  eexists; repeat split; reflexivity.
Qed.

(** * Further properties of the code *)

(** ** [setReturnsToDevice] *)

(** X1.  [setReturnsToDevice] never throws, although [setDeviceType] can:
    it returns for every node, device and table.  Afterwards every
    tensor-typed output is a tensor on the given device, every value that is
    not an output of the node or is not a tensor has the type it had, and
    the result is [true] exactly when a tensor output was on another
    device. *)
Theorem setReturnsToDevice_total (n : Node) (d : option Device)
    (s : ValueTypes) :
  exists c s',
    setReturnsToDevice n d s = Done c s' /\
    (forall o, In o (n_outputs n) -> isTensor (s o) = true ->
       isTensor (s' o) = true /\ device_of s' o = d) /\
    (forall v, ~ In v (n_outputs n) \/ isTensor (s v) = false -> s' v = s v) /\
    c = existsb (stale s d) (n_outputs n).
Proof.
  destruct (setReturnsToDevice_sets n d s)
    as [c [s' [H [Hset [Hframe [Hodc Hc]]]]]].
  exists c, s'; repeat split; try assumption; try (apply Hset; assumption).
  intros v [Hv | Hv]; [apply Hframe; exact Hv|].
  exact (redeviced_not_tensor _ _ (Hodc v) Hv).
Qed.

(** ** The scan of the operands *)

Lemma scanInputs_filter (s : ValueTypes) (inps : list Value) :
  forall st,
    scanInputs s (filter (fun v => isTensor (s v)) inps) st
    = scanInputs s inps st.
Proof.
  induction inps as [|v inps IH]; intro st; simpl; [reflexivity|].
  unfold isTensor at 1.
  destruct (cast_TensorType (s v)) as [t|] eqn:E; simpl; [|apply IH].
  rewrite E; destruct (scanStep st t); [apply IH | reflexivity].
Qed.

(** X2.  Inputs that are not tensors take no part in operand resolution:
    a node resolves as the node that has only its tensor-typed inputs, in
    the same order, does. *)
Theorem propWithNoDevice_ignores_non_tensors (kind : NodeKind)
    (ins outs : list Value) (blocks : list Block) (op : option Operator)
    (s : ValueTypes) :
  propWithNoDevice (mkNode kind ins outs blocks op) s =
  propWithNoDevice
    (mkNode kind (filter (fun v => isTensor (s v)) ins) outs blocks op) s.
Proof.
  unfold propWithNoDevice, setReturnsToDevice; simpl.
  rewrite scanInputs_filter; reflexivity.
Qed.

Lemma scanInputs_no_tensor (s : ValueTypes) (inps : list Value) :
  (forall v, In v inps -> isTensor (s v) = false) ->
  forall st, scanInputs s inps st = Some st.
Proof.
  induction inps as [|v inps IH]; intros H st; simpl; [reflexivity|].
  pose proof (H v (or_introl eq_refl)) as Hv; unfold isTensor in Hv.
  destruct (cast_TensorType (s v)); [discriminate|].
  apply IH; intros w Hw; apply H; right; exact Hw.
Qed.

(** X3.  A node without a tensor-typed input, a node without inputs among
    them, is resolved to unknown: every tensor output is put on [None],
    whatever device it carried. *)
Theorem propWithNoDevice_no_tensor_input (n : Node) (s : ValueTypes) :
  (forall v, In v (n_inputs n) -> isTensor (s v) = false) ->
  propWithNoDevice n s = setReturnsToDevice n None s /\
  exists c s',
    propWithNoDevice n s = Done c s' /\
    forall o, In o (n_outputs n) -> isTensor (s o) = true ->
      device_of s' o = None.
Proof.
  intro H.
  assert (E : propWithNoDevice n s = setReturnsToDevice n None s).
  { unfold propWithNoDevice.
    rewrite (scanInputs_no_tensor s (n_inputs n) H scanInit); reflexivity. }
  split; [exact E|]. rewrite E.
  destruct (setReturnsToDevice_sets n None s) as [c [s' [H1 [Hset _]]]].
  exists c, s'; split; [exact H1|].
  intros o Ho Ht; apply (Hset o Ho Ht).
Qed.

Lemma propWithNoDevice_no_tensor_input_witness :
  propWithNoDevice zeros_node add_types
    = setReturnsToDevice zeros_node None add_types /\
  exists c s',
    propWithNoDevice zeros_node add_types = Done c s' /\
    forall o, In o (n_outputs zeros_node) -> isTensor (add_types o) = true ->
      device_of s' o = None.
Proof.
  apply (propWithNoDevice_no_tensor_input zeros_node add_types).
  intros v [<- | []]; reflexivity.
Defined.

(** One step of the scan on an operand that is a zero-rank CPU scalar or is
    on [d0], from a state that has seen only such operands. *)
Lemma scanStep_absorbs (d0 : option Device) (st : ScanState) (t : TensorType) :
  seen_any_device st = false \/ only_seen_cpu_zerodim st = true
    \/ device st = d0 ->
  is_cpu_zerodim t = true \/ tt_device t = d0 ->
  exists st',
    scanStep st t = Some st' /\
    seen_any_device st' = true /\
    (only_seen_cpu_zerodim st' = true \/ device st' = d0) /\
    (is_cpu_zerodim t = false -> device st' = d0) /\
    (seen_any_device st = true -> device st = d0 -> device st' = d0).
Proof.
  intros G Ht; unfold scanStep.
  destruct (seen_any_device st) eqn:Hseen.
  - assert (G' : only_seen_cpu_zerodim st = true \/ device st = d0)
      by (destruct G as [G | G]; [discriminate | exact G]).
    destruct (optDevice_eqb (device st) (tt_device t)) eqn:E; simpl.
    + apply optDevice_eqb_eq in E.
      exists st; split; [reflexivity|]. split; [exact Hseen|].
      split; [exact G'|]. split; [|auto].
      intro Hz; destruct Ht as [Ht | Ht]; congruence.
    + destruct (is_cpu_zerodim t) eqn:Hz; simpl.
      * exists st; split; [reflexivity|]. split; [exact Hseen|].
        split; [exact G'|]. split; [discriminate | auto].
      * destruct Ht as [Ht | Ht]; [discriminate|].
        destruct (only_seen_cpu_zerodim st) eqn:Hflag.
        -- eexists; split; [reflexivity|]; simpl.
           split; [reflexivity|]. split; [right; exact Ht|].
           split; intros; exact Ht.
        -- destruct G' as [G' | G']; [discriminate|].
           rewrite G', Ht, optDevice_eqb_refl in E; discriminate.
  - eexists; split; [reflexivity|]; simpl.
    split; [reflexivity|]. split; [|split].
    + destruct (is_cpu_zerodim t); [left; reflexivity | right].
      destruct Ht as [Ht | Ht]; [discriminate | exact Ht].
    + intro Hz; destruct Ht as [Ht | Ht]; congruence.
    + discriminate.
Qed.

Lemma scanInputs_absorbs (s : ValueTypes) (d0 : option Device)
    (inps : list Value) :
  (forall v t, In v inps -> s v = TensorT t ->
     is_cpu_zerodim t = true \/ tt_device t = d0) ->
  forall st,
    seen_any_device st = false \/ only_seen_cpu_zerodim st = true
      \/ device st = d0 ->
    exists st',
      scanInputs s inps st = Some st' /\
      (seen_any_device st = true -> device st = d0 -> device st' = d0) /\
      ((exists v t, In v inps /\ s v = TensorT t /\ is_cpu_zerodim t = false)
         -> device st' = d0).
Proof.
  induction inps as [|i inps IH]; intros Hall st G; simpl.
  - exists st; repeat split; auto.
    intros [v [t [[] _]]].
  - assert (Hrest : forall v t, In v inps -> s v = TensorT t ->
              is_cpu_zerodim t = true \/ tt_device t = d0)
      by (intros v t Hv; apply Hall; right; exact Hv).
    destruct (cast_TensorType (s i)) as [ti|] eqn:E.
    + apply cast_Some in E.
      destruct (scanStep_absorbs d0 st ti G (Hall i ti (or_introl eq_refl) E))
        as [st1 [Hstep [Hseen1 [G1 [Hnz Hkeep]]]]].
      rewrite Hstep.
      destruct (IH Hrest st1 (or_intror G1)) as [st' [Hscan [Hk Hex]]].
      exists st'; split; [exact Hscan|]; split.
      * intros Hs Hd; apply Hk; [exact Hseen1 | apply Hkeep; assumption].
      * intros [v [t [[-> | Hin] [Hv Hz]]]].
        -- rewrite E in Hv; inversion Hv; subst.
           apply Hk; [exact Hseen1 | apply Hnz; exact Hz].
        -- apply Hex; exists v, t; auto.
    + destruct (IH Hrest st G) as [st' [Hscan [Hk Hex]]].
      exists st'; split; [exact Hscan|]; split; [exact Hk|].
      intros [v [t [[-> | Hin] [Hv Hz]]]].
      * rewrite Hv in E; discriminate.
      * apply Hex; exists v, t; auto.
Qed.

(** X4.  Agreement and absorption.  When every tensor operand of a node is
    either a zero-rank tensor on a CPU device or carries the annotation [d0]
    (a device, or unknown), and at least one operand is of the second sort,
    the node is resolved to [d0]: the zero-rank CPU operands are absorbed
    wherever they stand among the inputs. *)
Theorem propWithNoDevice_absorbs_scalars (n : Node) (s : ValueTypes)
    (d0 : option Device) :
  (forall v t, In v (n_inputs n) -> s v = TensorT t ->
     is_cpu_zerodim t = true \/ tt_device t = d0) ->
  (exists v t, In v (n_inputs n) /\ s v = TensorT t /\
               is_cpu_zerodim t = false) ->
  propWithNoDevice n s = setReturnsToDevice n d0 s.
Proof.
  intros Hall Hex; unfold propWithNoDevice.
  destruct (scanInputs_absorbs s d0 (n_inputs n) Hall scanInit
              (or_introl eq_refl)) as [st' [Hscan [_ Hd]]].
  rewrite Hscan, (Hd Hex); reflexivity.
Qed.

Lemma propWithNoDevice_absorbs_scalars_witness :
  propWithNoDevice three_node four_types
  = setReturnsToDevice three_node (Some cuda0) four_types.
Proof.
  apply (propWithNoDevice_absorbs_scalars three_node four_types (Some cuda0)).
  - intros v t [<- | [<- | [<- | []]]] H; inversion H; subst;
      [left | left | right]; reflexivity.
  - exists 12, (mkTensorType (Some cuda0) (Some 2%N) (Some kFloat)).
    split; [simpl; auto|]. split; reflexivity.
Defined.

Lemma scanStep_unknown (st st' : ScanState) (t : TensorType) :
  flag_means_cpu st ->
  tt_device t = None \/ (seen_any_device st = true /\ device st = None) ->
  scanStep st t = Some st' ->
  seen_any_device st' = true /\ device st' = None.
Proof.
  unfold scanStep; intros Hf Hcase H.
  assert (Hz : tt_device t = None -> is_cpu_zerodim t = false).
  { intro E; unfold is_cpu_zerodim; rewrite E; apply andb_false_r. }
  destruct (seen_any_device st) eqn:Hseen.
  - destruct (optDevice_eqb (device st) (tt_device t)) eqn:E; simpl in H.
    + inversion H; subst; split; [assumption|].
      apply optDevice_eqb_eq in E.
      destruct Hcase as [Ht | [_ Hd]]; congruence.
    + destruct (is_cpu_zerodim t) eqn:Hzt; simpl in H.
      * inversion H; subst; split; [assumption|].
        destruct Hcase as [Ht | [_ Hd]]; [|exact Hd].
        discriminate (Hz Ht).
      * destruct (only_seen_cpu_zerodim st) eqn:Hflag; [|discriminate].
        inversion H; subst; simpl; split; [reflexivity|].
        destruct Hcase as [Ht | [_ Hd]]; [exact Ht|].
        destruct (Hf Hflag) as [c [Hc _]]; congruence.
  - inversion H; subst; simpl; split; [reflexivity|].
    destruct Hcase as [Ht | [Hs _]]; [exact Ht | discriminate].
Qed.

Lemma scanInputs_unknown (s : ValueTypes) (inps : list Value) :
  forall st st', flag_means_cpu st -> scanInputs s inps st = Some st' ->
  (seen_any_device st = true /\ device st = None ->
     seen_any_device st' = true /\ device st' = None) /\
  ((exists v t, In v inps /\ s v = TensorT t /\ tt_device t = None) ->
     seen_any_device st' = true /\ device st' = None).
Proof.
  induction inps as [|i inps IH]; intros st st' Hf H; simpl in H.
  - inversion H; subst; split; [auto | intros [v [t [[] _]]]].
  - destruct (cast_TensorType (s i)) as [ti|] eqn:E.
    + apply cast_Some in E.
      destruct (scanStep st ti) as [st1|] eqn:Hstep; [|discriminate].
      pose proof (scanStep_flag _ _ _ Hf Hstep) as Hf1.
      destruct (IH _ _ Hf1 H) as [Hkeep Hnew]; split.
      * intro Hu; apply Hkeep.
        exact (scanStep_unknown st st1 ti Hf (or_intror Hu) Hstep).
      * intros [v [t [[-> | Hin] [Hv Ht]]]].
        -- rewrite E in Hv; inversion Hv; subst.
           apply Hkeep.
           exact (scanStep_unknown st st1 t Hf (or_introl Ht) Hstep).
        -- apply Hnew; exists v, t; auto.
    + destruct (IH _ _ Hf H) as [Hkeep Hnew]; split; [exact Hkeep|].
      intros [v [t [[-> | Hin] [Hv Ht]]]].
      * rewrite Hv in E; discriminate.
      * apply Hnew; exists v, t; auto.
Qed.

(** X5.  Unknown is contagious: a node that has a tensor operand whose
    device is not known is resolved to unknown, whatever its other operands
    are and in whatever order they come. *)
Theorem propWithNoDevice_unknown_operand (n : Node) (s : ValueTypes)
    (v : Value) (t : TensorType) :
  In v (n_inputs n) -> s v = TensorT t -> tt_device t = None ->
  propWithNoDevice n s = setReturnsToDevice n None s.
Proof.
  intros Hin Hv Ht; unfold propWithNoDevice.
  destruct (scanInputs s (n_inputs n) scanInit) as [st|] eqn:H; [|reflexivity].
  destruct (scanInputs_unknown s (n_inputs n) scanInit st scanInit_flag H)
    as [_ Hnew].
  destruct Hnew as [_ Hd]; [exists v, t; auto|].
  rewrite Hd; reflexivity.
Qed.

Lemma propWithNoDevice_unknown_operand_witness :
  propWithNoDevice add_node unknown_types
  = setReturnsToDevice add_node None unknown_types.
Proof.
  apply (propWithNoDevice_unknown_operand add_node unknown_types 13
           (mkTensorType None (Some 2%N) (Some kFloat))).
  - simpl; auto.
  - reflexivity.
  - reflexivity.
Defined.

Lemma scanStep_device (st st' : ScanState) (t : TensorType) :
  scanStep st t = Some st' ->
  device st' = device st \/ device st' = tt_device t.
Proof.
  unfold scanStep; intro H.
  destruct (seen_any_device st).
  - destruct (negb _ && negb _).
    + destruct (only_seen_cpu_zerodim st); inversion H; subst; auto.
    + inversion H; subst; auto.
  - inversion H; subst; auto.
Qed.

Lemma scanInputs_device (s : ValueTypes) (inps : list Value) :
  forall st st', scanInputs s inps st = Some st' ->
  device st' = device st \/
  exists v t, In v inps /\ s v = TensorT t /\ tt_device t = device st'.
Proof.
  induction inps as [|i inps IH]; intros st st' H; simpl in H.
  - inversion H; subst; auto.
  - destruct (cast_TensorType (s i)) as [ti|] eqn:E.
    + apply cast_Some in E.
      destruct (scanStep st ti) as [st1|] eqn:Hstep; [|discriminate].
      destruct (IH _ _ H) as [Hd | [v [t [Hin [Hv Ht]]]]].
      * destruct (scanStep_device _ _ _ Hstep) as [H1 | H1].
        -- left; congruence.
        -- right; exists i, ti; split; [left; reflexivity|].
           split; [exact E | congruence].
      * right; exists v, t; split; [right; exact Hin | auto].
    + destruct (IH _ _ H) as [Hd | [v [t [Hin [Hv Ht]]]]]; [left; exact Hd|].
      right; exists v, t; split; [right; exact Hin | auto].
Qed.

(** X6.  Operand resolution never invents a device: the device it writes to
    the outputs is unknown or is the device of one of the node's tensor
    operands. *)
Theorem propWithNoDevice_device_of_an_operand (n : Node) (s : ValueTypes) :
  exists d,
    propWithNoDevice n s = setReturnsToDevice n d s /\
    (d = None \/
     exists v t, In v (n_inputs n) /\ s v = TensorT t /\ tt_device t = d).
Proof.
  unfold propWithNoDevice.
  destruct (scanInputs s (n_inputs n) scanInit) as [st|] eqn:H.
  - exists (device st); split; [reflexivity|].
    destruct (scanInputs_device s (n_inputs n) scanInit st H) as [Hd | Hex];
      [left; exact Hd | right; exact Hex].
  - exists None; split; [reflexivity | left; reflexivity].
Qed.

(** ** The join of a conditional, continued *)

Lemma code_join_comm (d1 d2 : option Device) :
  code_join d1 d2 = code_join d2 d1.
Proof.
  unfold code_join; destruct d1 as [x|], d2 as [y|]; try reflexivity.
  destruct (Device_eqb x y) eqn:E.
  - apply Device_eqb_eq in E; subst; rewrite Device_eqb_refl; reflexivity.
  - destruct (Device_eqb y x) eqn:E'; [|reflexivity].
    apply Device_eqb_eq in E'; subst; rewrite Device_eqb_refl in E.
    discriminate.
Qed.

Lemma mergeLoop_comm :
  forall dst src1 src2 c s,
    mergeLoop src1 src2 dst c s = mergeLoop src2 src1 dst c s.
Proof.
  induction dst as [|d dst IH]; intros src1 src2 c s.
  - destruct src1, src2; reflexivity.
  - destruct src1 as [|a src1], src2 as [|b src2]; try reflexivity.
    destruct (both_tensor_cases s a b) as [[ta [tb [Ea Eb]]] | Hskip].
    + rewrite (mergeLoop_step a b d src1 src2 dst c s ta tb Ea Eb).
      rewrite (mergeLoop_step b a d src2 src1 dst c s tb ta Eb Ea).
      rewrite code_join_comm; unfold bind.
      destruct (setDeviceType d _ s); [apply IH | reflexivity].
    + rewrite (mergeLoop_skip a b d src1 src2 dst c s Hskip).
      rewrite andb_comm in Hskip.
      rewrite (mergeLoop_skip b a d src2 src1 dst c s Hskip).
      apply IH.
Qed.

(** X7.  The join does not depend on which branch is which: with the exit
    values of the two branches exchanged, [mergeAndApplyTensorProps] ends in
    the same way, with the same result and the same types. *)
Theorem mergeAndApplyTensorProps_comm (src1 src2 dst : list Value)
    (s : ValueTypes) :
  mergeAndApplyTensorProps src1 src2 dst s
  = mergeAndApplyTensorProps src2 src1 dst s.
Proof.
  unfold mergeAndApplyTensorProps.
  destruct (Nat.eqb (length src1) (length src2)) eqn:E1.
  - apply Nat.eqb_eq in E1; rewrite <- E1, Nat.eqb_refl; simpl.
    destruct (negb _); [reflexivity | apply mergeLoop_comm].
  - rewrite (Nat.eqb_sym (length src2) (length src1)), E1; reflexivity.
Qed.

Lemma mergeLoop_skips_position :
  forall dst src1 src2 c s i a b d,
    NoDup dst ->
    nth_error src1 i = Some a -> nth_error src2 i = Some b ->
    nth_error dst i = Some d ->
    isTensor (s a) && isTensor (s b) = false ->
    final (mergeLoop src1 src2 dst c s) d = s d.
Proof.
  induction dst as [|d0 dst IH]; intros src1 src2 c s i a b d Hnd H1 H2 H3 Hs.
  - destruct i; discriminate.
  - destruct src1 as [|a0 src1]; [destruct i; discriminate|].
    destruct src2 as [|b0 src2]; [destruct i; discriminate|].
    inversion Hnd as [|? ? Hd0 Hnd']; subst.
    destruct i as [|i]; simpl in H1, H2, H3.
    + inversion H1; inversion H2; inversion H3; subst.
      rewrite (mergeLoop_skip a b d src1 src2 dst c s Hs).
      apply mergeLoop_preserves; exact Hd0.
    + assert (Hne : d <> d0).
      { intro; subst; apply Hd0; eapply nth_error_In; eassumption. }
      destruct (both_tensor_cases s a0 b0) as [[ta [tb [Ea Eb]]] | Hskip].
      * rewrite (mergeLoop_step a0 b0 d0 src1 src2 dst c s ta tb Ea Eb).
        unfold bind.
        pose proof (setDeviceType_odc d0
                      (code_join (tt_device ta) (tt_device tb)) s) as Hodc.
        pose proof (setDeviceType_preserves d0 d
                      (code_join (tt_device ta) (tt_device tb)) Hne s) as Hp.
        destruct (setDeviceType d0 _ s) as [c1 s1 | e s1]; simpl in *;
          [|exact Hp].
        rewrite <- Hp.
        apply (IH src1 src2 (c || c1) s1 i a b d Hnd' H1 H2 H3).
        rewrite !(odc_isTensor s s1 _ Hodc); exact Hs.
      * rewrite (mergeLoop_skip a0 b0 d0 src1 src2 dst c s Hskip).
        apply (IH src1 src2 c s i a b d Hnd' H1 H2 H3 Hs).
Qed.

(** X8.  A position of the join at which one of the two exit values is not
    a tensor is skipped: the output at that position keeps its type,
    whether the join returns or throws at a later position.  The outputs
    are distinct values. *)
Theorem mergeAndApplyTensorProps_skips_non_tensor (src1 src2 dst : list Value)
    (s : ValueTypes) (i : nat) (a b d : Value) :
  NoDup dst ->
  nth_error src1 i = Some a -> nth_error src2 i = Some b ->
  nth_error dst i = Some d ->
  isTensor (s a) && isTensor (s b) = false ->
  final (mergeAndApplyTensorProps src1 src2 dst s) d = s d.
Proof.
  intros Hnd H1 H2 H3 Hs; unfold mergeAndApplyTensorProps.
  destruct (negb _); [reflexivity|].
  destruct (negb _); [reflexivity|].
  apply (mergeLoop_skips_position dst src1 src2 false s i a b d); assumption.
Qed.

Lemma mergeAndApplyTensorProps_skips_non_tensor_witness :
  final (mergeAndApplyTensorProps [1] [2] [3] mixed_join_types) 3
  = mixed_join_types 3.
Proof.
  apply (mergeAndApplyTensorProps_skips_non_tensor [1] [2] [3]
           mixed_join_types 0 1 2 3).
  - apply nodupb_spec; reflexivity.
  - reflexivity.
  - reflexivity.
  - reflexivity.
  - reflexivity.
Defined.

(** X18.  The two size assertions of the join are its only source of an
    internal-assertion error: [mergeAndApplyTensorProps] throws it, before
    anything is written, when the two lists of exit values and the list of
    outputs are not of one length, and when they are of one length it
    throws neither that error nor an out-of-range error. *)
Theorem mergeAndApplyTensorProps_size_assertions (src1 src2 dst : list Value)
    (s : ValueTypes) :
  (length src1 <> length src2 \/ length src1 <> length dst ->
     mergeAndApplyTensorProps src1 src2 dst s = Abort InternalAssert s) /\
  (length src1 = length src2 /\ length src1 = length dst ->
     forall s',
       mergeAndApplyTensorProps src1 src2 dst s <> Abort InternalAssert s' /\
       mergeAndApplyTensorProps src1 src2 dst s <> Abort OutOfRange s').
Proof.
  split.
  - intro H; unfold mergeAndApplyTensorProps.
    destruct (Nat.eqb (length src1) (length src2)) eqn:E1; [|reflexivity].
    destruct (Nat.eqb (length src1) (length dst)) eqn:E2; [|reflexivity].
    apply Nat.eqb_eq in E1, E2; tauto.
  - intros [L1 L2] s'.
    rewrite (mergeAndApply_lengths src1 src2 dst L1 L2).
    assert (L3 : length src2 = length dst) by congruence.
    destruct (join_typed s src1 src2 dst) eqn:Hj.
    + destruct (mergeLoop_typed dst src1 src2 false s L2 L3 Hj) as [c [s1 H]].
      rewrite H; split; discriminate.
    + destruct (mergeLoop_untyped dst src1 src2 false s L2 L3 Hj) as [s1 H].
      rewrite H; split; discriminate.
Qed.

Lemma scanInputs_skip_prefix (s : ValueTypes) (pre rest : list Value) :
  (forall v, In v pre -> isTensor (s v) = false) ->
  forall st, scanInputs s (pre ++ rest) st = scanInputs s rest st.
Proof.
  induction pre as [|v pre IH]; intros H st; simpl; [reflexivity|].
  pose proof (H v (or_introl eq_refl)) as Hv; unfold isTensor in Hv.
  destruct (cast_TensorType (s v)); [discriminate|].
  apply IH; intros w Hw; apply H; right; exact Hw.
Qed.

(** X19.  When all the tensor operands of a node are zero-rank tensors on a
    CPU device, the node is resolved to the device of the first of them;
    later scalars on another CPU device index do not replace it. *)
Theorem propWithNoDevice_only_scalars (n : Node) (s : ValueTypes)
    (pre : list Value) (v0 : Value) (rest : list Value) (t0 : TensorType) :
  n_inputs n = pre ++ v0 :: rest ->
  (forall v, In v pre -> isTensor (s v) = false) ->
  s v0 = TensorT t0 ->
  (forall v t, In v (v0 :: rest) -> s v = TensorT t ->
     is_cpu_zerodim t = true) ->
  propWithNoDevice n s = setReturnsToDevice n (tt_device t0) s.
Proof.
  intros Hin Hpre H0 Hall; unfold propWithNoDevice.
  rewrite Hin, (scanInputs_skip_prefix s pre (v0 :: rest) Hpre).
  simpl; rewrite H0; simpl.
  destruct (scanInputs_absorbs s (tt_device t0) rest
              ltac:(intros v t Hv Ht; left; apply (Hall v t); [right|]; assumption)
              (mkScan (tt_device t0) true (is_cpu_zerodim t0))
              (or_intror (or_intror eq_refl)))
    as [st' [Hscan [Hkeep _]]].
  rewrite Hscan, (Hkeep eq_refl eq_refl); reflexivity.
Qed.

Lemma propWithNoDevice_only_scalars_witness :
  propWithNoDevice (mkNode (aten "add") [15; 10; 11] [14] [] None) four_types
  = setReturnsToDevice (mkNode (aten "add") [15; 10; 11] [14] [] None)
      (Some cpu) four_types.
Proof.
  apply (propWithNoDevice_only_scalars
           (mkNode (aten "add") [15; 10; 11] [14] [] None) four_types
           [15] 10 [11] (mkTensorType (Some cpu) (Some 0%N) (Some kFloat))).
  - reflexivity.
  - intros v [<- | []]; reflexivity.
  - reflexivity.
  - intros v t [<- | [<- | []]] H; inversion H; reflexivity.
Defined.

(** Once an operand has been seen and the flag is not set, the state of the
    scan cannot change any more: the scan ends in the early return or in
    the state it is in. *)
Lemma scanInputs_fixed (s : ValueTypes) (st : ScanState) :
  seen_any_device st = true -> only_seen_cpu_zerodim st = false ->
  forall inps,
    scanInputs s inps st = None \/
    (scanInputs s inps st = Some st /\
     forall v t, In v inps -> s v = TensorT t ->
       is_cpu_zerodim t = true \/ tt_device t = device st).
Proof.
  intros Hseen Hflag; induction inps as [|i inps IH]; simpl.
  - right; split; [reflexivity | intros v t []].
  - destruct (cast_TensorType (s i)) as [ti|] eqn:E.
    + apply cast_Some in E; unfold scanStep; rewrite Hseen, Hflag.
      destruct (optDevice_eqb (device st) (tt_device ti)) eqn:Hd; simpl.
      * apply optDevice_eqb_eq in Hd.
        destruct IH as [IH | [IH Hall]]; [left; exact IH | right].
        split; [exact IH|].
        intros v t [<- | Hv] Ht; [|exact (Hall v t Hv Ht)].
        rewrite E in Ht; inversion Ht; subst; right; symmetry; exact Hd.
      * destruct (is_cpu_zerodim ti) eqn:Hz; simpl; [|left; reflexivity].
        destruct IH as [IH | [IH Hall]]; [left; exact IH | right].
        split; [exact IH|].
        intros v t [<- | Hv] Ht; [|exact (Hall v t Hv Ht)].
        rewrite E in Ht; inversion Ht; subst; left; exact Hz.
    + destruct IH as [IH | [IH Hall]]; [left; exact IH | right].
      split; [exact IH|].
      intros v t [<- | Hv] Ht; [|exact (Hall v t Hv Ht)].
      rewrite Ht in E; discriminate.
Qed.

(** X20.  When the first tensor operand of a node is not a zero-rank CPU
    scalar, its annotation binds: a later tensor operand that is not such a
    scalar either and carries another annotation (another device, or
    unknown against a device) resolves the node to unknown.  This holds for
    CPU devices as for any other. *)
Theorem propWithNoDevice_first_operand_binds (n : Node) (s : ValueTypes)
    (pre : list Value) (v0 : Value) (rest : list Value) (t0 : TensorType)
    (v : Value) (t : TensorType) :
  n_inputs n = pre ++ v0 :: rest ->
  (forall w, In w pre -> isTensor (s w) = false) ->
  s v0 = TensorT t0 -> is_cpu_zerodim t0 = false ->
  In v rest -> s v = TensorT t -> is_cpu_zerodim t = false ->
  tt_device t <> tt_device t0 ->
  propWithNoDevice n s = setReturnsToDevice n None s.
Proof.
  intros Hin Hpre H0 Hz0 Hv Ht Hz Hne; unfold propWithNoDevice.
  rewrite Hin, (scanInputs_skip_prefix s pre (v0 :: rest) Hpre).
  simpl; rewrite H0; simpl; rewrite Hz0.
  destruct (scanInputs_fixed s (mkScan (tt_device t0) true false)
              eq_refl eq_refl rest) as [E | [E Hall]].
  - rewrite E; reflexivity.
  - destruct (Hall v t Hv Ht) as [Hc | Hc]; [congruence|].
    simpl in Hc; contradiction.
Qed.

Lemma propWithNoDevice_first_operand_binds_witness :
  propWithNoDevice (mkNode (aten "add") [15; 12; 10; 13] [14] [] None)
    four_types_cpu
  = setReturnsToDevice (mkNode (aten "add") [15; 12; 10; 13] [14] [] None)
      None four_types_cpu.
Proof.
  apply (propWithNoDevice_first_operand_binds
           (mkNode (aten "add") [15; 12; 10; 13] [14] [] None) four_types_cpu
           [15] 12 [10; 13]
           (mkTensorType (Some cpu) (Some 2%N) (Some kFloat))
           13 (mkTensorType (Some cuda0) (Some 2%N) (Some kFloat))).
  - reflexivity.
  - intros w [<- | []]; reflexivity.
  - reflexivity.
  - reflexivity.
  - simpl; auto.
  - reflexivity.
  - reflexivity.
  - discriminate.
Defined.

(** ** The operator rule and the traversal, continued *)

Section TraversalFacts.

Variable isSubtypeOf : JitType -> JitType -> bool.
Variable toIValue : Value -> option IValue.

Local Notation "'passed'" := (passed_over isSubtypeOf toIValue).
Local Notation "'argsLoop'" := (argumentsLoop isSubtypeOf toIValue).
Local Notation "'deviceProp'" := (defaultDeviceProp isSubtypeOf toIValue).
Local Notation "'atenOps'" := (processAtenOps isSubtypeOf toIValue).
Local Notation "'doNode'" := (processNode isSubtypeOf toIValue).
Local Notation "'doBlock'" := (processBlock isSubtypeOf toIValue).
Local Notation "'doNodes'" := (processNodes isSubtypeOf toIValue).
Local Notation "'inRange'" := (args_in_range isSubtypeOf).
Local Notation "'safeNode'" := (safe_node isSubtypeOf).
Local Notation "'safeBlock'" := (safe_block isSubtypeOf).

(** X9.  When every parameter of the schema either does not accept a device
    or has the constant [None] as its input, the operator rule is operand
    resolution: [defaultDeviceProp] does what [propWithNoDevice] does.  A
    schema without a device parameter is such a schema. *)
Theorem defaultDeviceProp_falls_back (n : Node) (op : Operator)
    (s : ValueTypes) :
  maybeOperator n = Some op ->
  passed n 0 (arguments (op_schema op)) = true ->
  deviceProp n s = propWithNoDevice n s.
Proof.
  intros Hop Hpass.
  rewrite (defaultDeviceProp_schema isSubtypeOf toIValue n op Hop).
  pose proof (argumentsLoop_passes isSubtypeOf toIValue n [] s
                (arguments (op_schema op)) 0 Hpass) as H.
  rewrite app_nil_r in H; exact H.
Qed.

(** X10.  The input of a device parameter is fetched with a bounds check:
    when the scan selects a parameter (every parameter before it either
    does not accept a device or has the constant [None] as input) and the
    node has no input at its position, [defaultDeviceProp] throws the
    out-of-range error and no type has been written. *)
Theorem defaultDeviceProp_input_missing (n : Node) (op : Operator)
    (pre : list Argument) (a : Argument) (post : list Argument)
    (s : ValueTypes) :
  maybeOperator n = Some op ->
  arguments (op_schema op) = pre ++ a :: post ->
  passed n 0 pre = true ->
  isSubtypeOf DeviceObjT (arg_type a) = true ->
  length (n_inputs n) <= length pre ->
  deviceProp n s = Abort OutOfRange s.
Proof.
  intros Hop Hargs Hpre Ha Hlen.
  rewrite (defaultDeviceProp_schema isSubtypeOf toIValue n op Hop), Hargs.
  rewrite (argumentsLoop_passes isSubtypeOf toIValue n (a :: post) s pre 0 Hpre).
  rewrite (argumentsLoop_selected isSubtypeOf toIValue n (0 + length pre)
             a post s Ha).
  simpl; apply nth_error_None in Hlen; rewrite Hlen; reflexivity.
Qed.

Lemma setReturnsLoop_never_aborts (outs : list Value) (d : option Device)
    (c : bool) (s s' : ValueTypes) (e : Error) :
  setReturnsLoop outs d c s <> Abort e s'.
Proof.
  destruct (setReturnsLoop_total outs d c s) as [c' [s1 H]].
  rewrite H; discriminate.
Qed.

Lemma argumentsLoop_abort (n : Node) (s s' : ValueTypes) (e : Error) :
  forall args i, argsLoop n i args s = Abort e s' -> e = OutOfRange /\ s' = s.
Proof.
  induction args as [|a args IH]; intros i H; simpl in H.
  - unfold propWithNoDevice, setReturnsToDevice in H.
    destruct (scanInputs s (n_inputs n) scanInit);
      exfalso; exact (setReturnsLoop_never_aborts _ _ _ _ _ _ H).
  - destruct (isSubtypeOf DeviceObjT (arg_type a)); [|exact (IH _ H)].
    destruct (nth_error (n_inputs n) i) as [inp|];
      [|inversion H; auto].
    destruct (toIValue inp) as [iv|]; [|discriminate].
    destruct iv; simpl in H; try discriminate; [exact (IH _ H)|].
    exfalso; exact (setReturnsLoop_never_aborts _ _ _ _ _ _ H).
Qed.

(** X11.  The operator rule has one way to fail: when [defaultDeviceProp]
    throws, the error is the out-of-range error of the input lookup, and it
    is thrown before any type is written.  The internal assertion of line
    116 and the tensor-type extraction of [setDeviceType] never fail
    there. *)
Theorem defaultDeviceProp_throws_only_out_of_range (n : Node)
    (s s' : ValueTypes) (e : Error) :
  deviceProp n s = Abort e s' -> e = OutOfRange /\ s' = s.
Proof.
  unfold defaultDeviceProp; destruct (maybeSchema n); [|discriminate].
  apply argumentsLoop_abort.
Qed.

(** *** Only devices change, and only where the traversal gets to *)

Lemma processNodes_odc (ns : list Node) :
  Forall (fun n => forall c s, only_devices_change s (final (doNode n c s))) ns ->
  forall c s, only_devices_change s (final (doNodes ns c s)).
Proof.
  induction 1 as [|n ns Hn _ IH]; intros c s; simpl.
  - apply odc_refl.
  - apply odc_bind; [apply Hn | intros; apply IH].
Qed.

Lemma processNode_odc_tree :
  forall n c s, only_devices_change s (final (doNode n c s)).
Proof.
  apply (Node_tree_ind
    (fun n => forall c s, only_devices_change s (final (doNode n c s)))
    (fun b => forall c s, only_devices_change s (final (doBlock b c s)))).
  - intros kind ins outs blocks op Hbs c s.
    destruct kind; try apply odc_refl;
      try (simpl; destruct (negb _); apply odc_refl).
    + rewrite processNode_If; unfold processIf; simpl.
      destruct blocks as [|b0 [|b1 bs]]; try apply odc_refl.
      inversion Hbs as [|? ? Q0 Hbs']; subst.
      inversion Hbs' as [|? ? Q1 _]; subst.
      apply odc_bind; [apply Q0 | intros c1 s1].
      apply odc_bind; [apply Q1 | intros c2 s2].
      apply odc_bind; [apply mergeAndApply_odc | intros; apply odc_refl].
    + rewrite processNode_aten; destruct (negb _); [apply odc_refl|].
      apply processAtenOps_odc.
  - intros nodes outs Hns c s.
    rewrite processBlock_eq; simpl.
    apply processNodes_odc; exact Hns.
Qed.

Lemma processBlock_odc (b : Block) (c : bool) (s : ValueTypes) :
  only_devices_change s (final (doBlock b c s)).
Proof.
  rewrite processBlock_eq; apply processNodes_odc.
  apply Forall_forall; intros n _; apply processNode_odc_tree.
Qed.

(** X12.  Whatever the graph and however the run ends, by returning or by
    throwing, the pass has changed nothing but devices: a value that was
    not a tensor has its type unchanged, and a value that was a tensor is
    still a tensor with the rank and the scalar type it had. *)
Theorem run_changes_only_devices (g : Graph) (s : ValueTypes) :
  (forall v, isTensor (s v) = false ->
     final (run isSubtypeOf toIValue g s) v = s v) /\
  (forall v ty, s v = TensorT ty ->
     exists ty',
       final (run isSubtypeOf toIValue g s) v = TensorT ty' /\
       tt_rank ty' = tt_rank ty /\
       tt_scalar_type ty' = tt_scalar_type ty).
Proof.
  pose proof (processBlock_odc (g_block g) false s) as Hodc.
  unfold run; split.
  - intros v Hv; exact (redeviced_not_tensor _ _ (Hodc v) Hv).
  - intros v ty Hv; destruct (Hodc v) as [E | [ty0 [d [E1 E2]]]].
    + exists ty; rewrite E; auto.
    + rewrite Hv in E1; inversion E1; subst ty0.
      exists (withDevice ty d); rewrite E2; auto.
Qed.

Lemma processNodes_written (ns : list Node) (v : Value) :
  Forall (fun n => forall c, ~ In v (written_node n) ->
                             preserves (doNode n c) v) ns ->
  ~ In v (flat_map written_node ns) ->
  forall c, preserves (doNodes ns c) v.
Proof.
  induction 1 as [|n ns Hn _ IH]; intros Hv c; simpl.
  - apply preserves_ret.
  - simpl in Hv; rewrite in_app_iff in Hv.
    apply preserves_bind; [apply Hn | intro; apply IH]; tauto.
Qed.

Lemma processNode_written_tree (v : Value) :
  forall n c, ~ In v (written_node n) -> preserves (doNode n c) v.
Proof.
  apply (Node_tree_ind
    (fun n => forall c, ~ In v (written_node n) -> preserves (doNode n c) v)
    (fun b => forall c, ~ In v (written_block b) -> preserves (doBlock b c) v)).
  - intros kind ins outs blocks op Hbs c Hv.
    destruct kind; try apply preserves_ret;
      try (intro s; simpl; destruct (negb _); reflexivity).
    + rewrite processNode_If; unfold processIf; simpl.
      destruct blocks as [|b0 [|b1 bs]]; try apply preserves_throw.
      inversion Hbs as [|? ? Q0 Hbs']; subst.
      inversion Hbs' as [|? ? Q1 _]; subst.
      simpl in Hv; rewrite !in_app_iff in Hv.
      apply preserves_bind; [apply Q0; tauto | intro c1].
      apply preserves_bind; [apply Q1; tauto | intro c2].
      apply preserves_bind; [|intro; apply preserves_ret].
      apply mergeAndApply_preserves; tauto.
    + intro s; rewrite processNode_aten; destruct (negb _); [reflexivity|].
      simpl in Hv; destruct op as [o|].
      * apply processAtenOps_preserves; exact Hv.
      * reflexivity.
  - intros nodes outs Hns c Hv s.
    rewrite processBlock_eq; simpl.
    apply processNodes_written; assumption.
Qed.

(** X13.  The pass writes only to the outputs of the conditionals and of
    the [aten] nodes with a resolved operator that the traversal gets to,
    at the top level or inside the two branches of a conditional.  Every
    other value keeps its type however the run ends: the inputs of the
    graph, the outputs of loops, calls, constants and list nodes, and
    everything defined inside the body of a loop. *)
Theorem run_writes_only_reached_outputs (g : Graph) (s : ValueTypes)
    (v : Value) :
  ~ In v (written_block (g_block g)) ->
  final (run isSubtypeOf toIValue g s) v = s v.
Proof.
  intro Hv; unfold run; rewrite processBlock_eq.
  destruct (g_block g) as [ns outs]; simpl in *.
  apply processNodes_written; [|exact Hv].
  apply Forall_forall; intros n _; apply processNode_written_tree.
Qed.

(** *** The accumulator *)

Lemma with_flag_false (o : Outcome bool) : with_flag false o = o.
Proof. destruct o; reflexivity. Qed.

Lemma processAtenOps_flag (n : Node) (c : bool) (s : ValueTypes) :
  atenOps n c s = with_flag c (atenOps n false s).
Proof.
  unfold processAtenOps; destruct (maybeOperator n); simpl.
  - unfold bind, ret; destruct (deviceProp n s); reflexivity.
  - unfold ret; simpl; rewrite orb_false_r; reflexivity.
Qed.

Lemma processNodes_flag (ns : list Node) :
  Forall (fun n => forall c s, doNode n c s = with_flag c (doNode n false s)) ns ->
  forall c s, doNodes ns c s = with_flag c (doNodes ns false s).
Proof.
  induction 1 as [|n ns Hn _ IH]; intros c s; simpl.
  - unfold ret; simpl; rewrite orb_false_r; reflexivity.
  - unfold bind; rewrite Hn.
    destruct (doNode n false s) as [c1 s1 | e s1]; simpl; [|reflexivity].
    rewrite IH, (IH c1).
    destruct (doNodes ns false s1); simpl; [|reflexivity].
    rewrite orb_assoc; reflexivity.
Qed.

Lemma processNode_flag_tree :
  forall n c s, doNode n c s = with_flag c (doNode n false s).
Proof.
  apply (Node_tree_ind
    (fun n => forall c s, doNode n c s = with_flag c (doNode n false s))
    (fun b => forall c s, doBlock b c s = with_flag c (doBlock b false s))).
  - intros kind ins outs blocks op Hbs c s.
    destruct kind;
      try (simpl; unfold ret; simpl; rewrite orb_false_r; reflexivity);
      try (simpl; destruct (negb _); simpl; rewrite orb_false_r; reflexivity).
    + rewrite !processNode_If; unfold processIf; simpl.
      destruct blocks as [|b0 [|b1 bs]]; try reflexivity.
      inversion Hbs as [|? ? Q0 Hbs']; subst.
      inversion Hbs' as [|? ? Q1 _]; subst.
      unfold bind; rewrite Q0.
      destruct (doBlock b0 false s) as [c1 s1 | e s1]; simpl; [|reflexivity].
      rewrite Q1, (Q1 c1).
      destruct (doBlock b1 false s1) as [c2 s2 | e s2]; simpl; [|reflexivity].
      destruct (mergeAndApplyTensorProps _ _ _ s2); simpl; [|reflexivity].
      unfold ret; rewrite orb_assoc; reflexivity.
    + rewrite !processNode_aten; destruct (negb _); simpl.
      * rewrite orb_false_r; reflexivity.
      * apply processAtenOps_flag.
  - intros nodes outs Hns c s.
    rewrite !processBlock_eq; simpl.
    apply processNodes_flag; exact Hns.
Qed.

Lemma processBlock_flag (b : Block) (c : bool) (s : ValueTypes) :
  doBlock b c s = with_flag c (doBlock b false s).
Proof.
  rewrite !processBlock_eq; apply processNodes_flag.
  apply Forall_forall; intros n _; apply processNode_flag_tree.
Qed.

(** X14.  The member [changed_] is only ever or-ed into: a node or a block
    visited with the accumulator [c] ends as it does with the accumulator
    [false], with the same types, and returns [c] or-ed with what it
    returns then.  The accumulator never steers a write and is never
    reset. *)
Theorem traversal_accumulates :
  (forall n c s, doNode n c s = with_flag c (doNode n false s)) /\
  (forall b c s, doBlock b c s = with_flag c (doBlock b false s)).
Proof.
  split; [apply processNode_flag_tree | apply processBlock_flag].
Qed.

(** *** What the returned flag tells *)

Lemma existsb_false_all {A} (f : A -> bool) (l : list A) :
  existsb f l = false -> forall x, In x l -> f x = false.
Proof.
  intros H x Hx; destruct (f x) eqn:E; [|reflexivity].
  assert (Ht : existsb f l = true) by (apply existsb_exists; eauto).
  congruence.
Qed.

Lemma setReturnsLoop_false (outs : list Value) (d : option Device)
    (c : bool) (s s' : ValueTypes) :
  setReturnsLoop outs d c s = Done false s' -> s' = s.
Proof.
  intro H; pose proof (setReturnsLoop_changed outs d c s false s' H) as Hc.
  symmetry in Hc; apply orb_false_iff in Hc; destruct Hc as [-> Hst].
  assert (Hno : setReturnsLoop outs d false s = Done false s).
  { apply setReturnsLoop_noop; intros o ty Ho Hty.
    pose proof (existsb_false_all _ _ Hst o Ho) as Hs.
    unfold stale, device_of, isTensor in Hs; rewrite Hty in Hs; simpl in Hs.
    apply negb_false_iff, optDevice_eqb_eq in Hs; exact Hs. }
  rewrite Hno in H; inversion H; reflexivity.
Qed.

Lemma setReturnsLoop_true (outs : list Value) (d : option Device)
    (s s' : ValueTypes) :
  setReturnsLoop outs d false s = Done true s' ->
  exists o, In o outs /\ s' o <> s o.
Proof.
  intro H; pose proof (setReturnsLoop_changed outs d false s true s' H) as Hc.
  simpl in Hc; symmetry in Hc; apply existsb_exists in Hc.
  destruct Hc as [o [Ho Hs]]; exists o; split; [exact Ho|].
  unfold stale in Hs; apply andb_true_iff in Hs; destruct Hs as [Ht Hd].
  pose proof (setReturnsLoop_odc outs d false s) as Hodc.
  rewrite H in Hodc; simpl in Hodc.
  assert (Ht' : isTensor (s' o) = true)
    by (rewrite (odc_isTensor s s' o Hodc); exact Ht).
  apply isTensor_true in Ht'; destruct Ht' as [ty' Hty'].
  pose proof (setReturnsLoop_post outs d false s true s' H o ty' Ho Hty') as Hdev.
  intro E; unfold device_of in Hd; rewrite <- E, Hty' in Hd; simpl in Hd.
  rewrite Hdev, optDevice_eqb_refl in Hd; discriminate.
Qed.

Lemma propWithNoDevice_false (n : Node) (s s' : ValueTypes) :
  propWithNoDevice n s = Done false s' -> s' = s.
Proof.
  unfold propWithNoDevice, setReturnsToDevice.
  destruct (scanInputs s (n_inputs n) scanInit); apply setReturnsLoop_false.
Qed.

Lemma propWithNoDevice_true (n : Node) (s s' : ValueTypes) :
  propWithNoDevice n s = Done true s' ->
  exists o, In o (n_outputs n) /\ s' o <> s o.
Proof.
  unfold propWithNoDevice, setReturnsToDevice.
  destruct (scanInputs s (n_inputs n) scanInit); apply setReturnsLoop_true.
Qed.

Lemma argumentsLoop_false (n : Node) (s s' : ValueTypes) :
  forall args i, argsLoop n i args s = Done false s' -> s' = s.
Proof.
  induction args as [|a args IH]; intros i H; simpl in H.
  - exact (propWithNoDevice_false n s s' H).
  - destruct (isSubtypeOf DeviceObjT (arg_type a)); [|exact (IH _ H)].
    destruct (nth_error (n_inputs n) i) as [inp|]; [|discriminate].
    destruct (toIValue inp) as [iv|]; [|inversion H; reflexivity].
    destruct iv; simpl in H; try (inversion H; reflexivity);
      [exact (IH _ H)|].
    exact (setReturnsLoop_false _ _ _ _ _ H).
Qed.

Lemma argumentsLoop_true (n : Node) (s s' : ValueTypes) :
  forall args i, argsLoop n i args s = Done true s' ->
  exists o, In o (n_outputs n) /\ s' o <> s o.
Proof.
  induction args as [|a args IH]; intros i H; simpl in H.
  - exact (propWithNoDevice_true n s s' H).
  - destruct (isSubtypeOf DeviceObjT (arg_type a)); [|exact (IH _ H)].
    destruct (nth_error (n_inputs n) i) as [inp|]; [|discriminate].
    destruct (toIValue inp) as [iv|]; [|discriminate].
    destruct iv; simpl in H; try discriminate; [exact (IH _ H)|].
    exact (setReturnsLoop_true _ _ _ _ H).
Qed.

Lemma processAtenOps_false (n : Node) (s s' : ValueTypes) :
  atenOps n false s = Done false s' -> s' = s.
Proof.
  unfold processAtenOps, defaultDeviceProp, maybeSchema.
  destruct (maybeOperator n); simpl; [|intro H; inversion H; reflexivity].
  intro H; apply bind_Done in H; destruct H as [a [s1 [H1 H2]]].
  inversion H2; subst; simpl in H1.
  exact (argumentsLoop_false n s s' _ _ H1).
Qed.

Lemma processAtenOps_true (n : Node) (s s' : ValueTypes) :
  atenOps n false s = Done true s' ->
  exists o, In o (n_outputs n) /\ s' o <> s o.
Proof.
  unfold processAtenOps, defaultDeviceProp, maybeSchema.
  destruct (maybeOperator n); simpl; [|discriminate].
  intro H; apply bind_Done in H; destruct H as [a [s1 [H1 H2]]].
  inversion H2; subst; simpl in H1.
  exact (argumentsLoop_true n s s' _ _ H1).
Qed.

(** A step that starts from [c] and returns [false] started from [false]
    and returns [false] from there too. *)
Lemma with_flag_Done_false (c : bool) (o : Outcome bool) (s' : ValueTypes) :
  with_flag c o = Done false s' -> c = false /\ o = Done false s'.
Proof.
  destruct o as [c0 s0 | e s0]; simpl; [|discriminate].
  intro H; inversion H as [[Hc Hs]].
  apply orb_false_iff in Hc; destruct Hc as [-> ->]; auto.
Qed.

Lemma processNodes_false (ns : list Node) :
  Forall (fun n => forall s s', doNode n false s = Done false s' ->
            forall v, ~ In v (join_outputs_node n) -> s' v = s v) ns ->
  forall s s', doNodes ns false s = Done false s' ->
  forall v, ~ In v (flat_map join_outputs_node ns) -> s' v = s v.
Proof.
  induction 1 as [|n ns Hn Hall IH]; intros s s' H v Hv; simpl in H.
  - inversion H; reflexivity.
  - apply bind_Done in H; destruct H as [c1 [s1 [H1 H2]]].
    assert (Hflag : forall c s, doNodes ns c s = with_flag c (doNodes ns false s)).
    { apply processNodes_flag, Forall_forall; intros m _.
      apply processNode_flag_tree. }
    rewrite Hflag in H2; apply with_flag_Done_false in H2.
    destruct H2 as [-> H2].
    simpl in Hv; rewrite in_app_iff in Hv.
    rewrite (IH s1 s' H2 v) by tauto.
    apply (Hn s s1 H1 v); tauto.
Qed.

Lemma processNode_false_tree :
  forall n s s', doNode n false s = Done false s' ->
  forall v, ~ In v (join_outputs_node n) -> s' v = s v.
Proof.
  apply (Node_tree_ind
    (fun n => forall s s', doNode n false s = Done false s' ->
              forall v, ~ In v (join_outputs_node n) -> s' v = s v)
    (fun b => forall s s', doBlock b false s = Done false s' ->
              forall v, ~ In v (join_outputs_block b) -> s' v = s v)).
  - intros kind ins outs blocks op Hbs s s' H v Hv.
    destruct kind;
      try (simpl in H; inversion H; reflexivity);
      try (simpl in H; destruct (negb _); inversion H; reflexivity).
    + rewrite processNode_If in H; unfold processIf in H; simpl in H, Hv.
      destruct blocks as [|b0 [|b1 bs]]; try discriminate.
      inversion Hbs as [|? ? Q0 Hbs']; subst.
      inversion Hbs' as [|? ? Q1 _]; subst.
      rewrite !in_app_iff in Hv.
      apply bind_Done in H; destruct H as [c1 [s1 [H0 H]]].
      apply bind_Done in H; destruct H as [c2 [s2 [H1 H]]].
      apply bind_Done in H; destruct H as [x [s3 [H2 H]]].
      inversion H; subst c2 s3; clear H.
      rewrite processBlock_flag in H1; apply with_flag_Done_false in H1.
      destruct H1 as [-> H1].
      pose proof (mergeAndApply_preserves (b_outputs b0) (b_outputs b1) outs v
                    ltac:(tauto) s2) as P.
      rewrite H2 in P; simpl in P; rewrite P.
      rewrite (Q1 s1 s2 H1 v) by tauto.
      apply (Q0 s s1 H0 v); tauto.
    + rewrite processNode_aten in H; destruct (negb _);
        [inversion H; reflexivity|].
      rewrite (processAtenOps_false _ s s' H); reflexivity.
  - intros nodes outs Hns s s' H v Hv.
    rewrite processBlock_eq in H; simpl in *.
    exact (processNodes_false nodes Hns s s' H v Hv).
Qed.

(** X15.  A run that returns [false] has changed no type, except possibly
    at the outputs of the conditionals the traversal gets to: every other
    value has the type it had.  On a graph without a conditional at the top
    level, a result of [false] means that nothing has changed. *)
Theorem run_false_changes_only_join_outputs (g : Graph) (s s' : ValueTypes) :
  run isSubtypeOf toIValue g s = Done false s' ->
  forall v, ~ In v (join_outputs_block (g_block g)) -> s' v = s v.
Proof.
  unfold run; intros H v Hv.
  rewrite processBlock_eq in H.
  destruct (g_block g) as [ns outs]; simpl in *.
  apply (processNodes_false ns) with (s := s); [|exact H|exact Hv].
  apply Forall_forall; intros n _; apply processNode_false_tree.
Qed.

Lemma processNodes_true (ns : list Node) :
  Forall (fun n => wf_node n = true ->
            forall s s', doNode n false s = Done true s' ->
            exists v, In v (defs_node n) /\ s' v <> s v) ns ->
  wf_nodes ns = true ->
  forall s s', doNodes ns false s = Done true s' ->
  exists v, In v (flat_map defs_node ns) /\ s' v <> s v.
Proof.
  induction 1 as [|n ns Hn Hall IH]; intros Hwf s s' H; simpl in H.
  - discriminate.
  - simpl in Hwf; apply andb_true_iff in Hwf; destruct Hwf as [Hwf Hrest].
    apply andb_true_iff in Hwf; destruct Hwf as [Hwfn Hdis].
    rewrite disjointb_spec in Hdis.
    apply bind_Done in H; destruct H as [c1 [s1 [H1 H2]]].
    destruct c1.
    + destruct (Hn Hwfn s s1 H1) as [v [Hv Hne]].
      exists v; split; [simpl; apply in_or_app; left; exact Hv|].
      assert (Hnot : ~ In v (flat_map defs_node ns))
        by (apply Hdis, in_or_app; right; exact Hv).
      pose proof (processNodes_preserves_defs isSubtypeOf toIValue ns v true
                    Hnot s1) as P.
      rewrite H2 in P; simpl in P; rewrite P; exact Hne.
    + destruct (IH Hrest s1 s' H2) as [v [Hv Hne]].
      exists v; split; [simpl; apply in_or_app; right; exact Hv|].
      assert (Hnot : ~ In v (defs_node n)).
      { intro Hd; apply (Hdis v); [apply in_or_app; right; exact Hd|exact Hv]. }
      pose proof (processNode_preserves_tree isSubtypeOf toIValue v n false
                    Hnot s) as P.
      rewrite H1 in P; simpl in P; rewrite <- P; exact Hne.
Qed.

Lemma processNode_true_tree :
  forall n, wf_node n = true ->
  forall s s', doNode n false s = Done true s' ->
  exists v, In v (defs_node n) /\ s' v <> s v.
Proof.
  apply (Node_tree_ind
    (fun n => wf_node n = true ->
              forall s s', doNode n false s = Done true s' ->
              exists v, In v (defs_node n) /\ s' v <> s v)
    (fun b => wf_block b = true ->
              forall s s', doBlock b false s = Done true s' ->
              exists v, In v (defs_block b) /\ s' v <> s v)).
  - intros kind ins outs blocks op Hbs Hwf s s' H.
    rewrite wf_node_eq in Hwf.
    apply andb_true_iff in Hwf; destruct Hwf as [Hwf Hwfb].
    apply andb_true_iff in Hwf; destruct Hwf as [_ Hout].
    rewrite disjointb_spec in Hout.
    destruct kind;
      try (simpl in H; discriminate);
      try (simpl in H; destruct (negb _); discriminate).
    + rewrite processNode_If in H; unfold processIf in H; simpl in H.
      destruct blocks as [|b0 [|b1 bs]]; try discriminate.
      inversion Hbs as [|? ? Q0 Hbs']; subst.
      inversion Hbs' as [|? ? Q1 _]; subst.
      simpl in Hwfb.
      apply andb_true_iff in Hwfb; destruct Hwfb as [Hwfb Hwfr].
      apply andb_true_iff in Hwfb; destruct Hwfb as [Hwf0 Hdis0].
      apply andb_true_iff in Hwfr; destruct Hwfr as [Hwfr _].
      apply andb_true_iff in Hwfr; destruct Hwfr as [Hwf1 _].
      rewrite disjointb_spec in Hdis0.
      apply bind_Done in H; destruct H as [c1 [s1 [H0 H]]].
      apply bind_Done in H; destruct H as [c2 [s2 [H1 H]]].
      apply bind_Done in H; destruct H as [x [s3 [H2 H]]].
      inversion H; subst c2 s3; clear H.
      assert (A2 : forall v,
                In v (flat_map defs_block (b0 :: b1 :: bs)) -> s' v = s2 v).
      { intros v Hv.
        assert (Hno : ~ In v outs).
        { intro Ho; apply (Hout v Ho); rewrite !in_app_iff; tauto. }
        pose proof (mergeAndApply_preserves (b_outputs b0) (b_outputs b1)
                      outs v Hno s2) as P.
        rewrite H2 in P; exact P. }
      destruct c1.
      * destruct (Q0 Hwf0 s s1 H0) as [v [Hv Hne]].
        exists v; split; [simpl; rewrite !in_app_iff; tauto|].
        rewrite A2 by (simpl; rewrite !in_app_iff; tauto).
        assert (Hnot : ~ In v (defs_block b1)).
        { intro Hd; apply (Hdis0 v); [apply in_or_app; right; exact Hv|].
          simpl; apply in_or_app; left; exact Hd. }
        pose proof (processBlock_preserves isSubtypeOf toIValue b1 v true
                      Hnot s1) as P.
        rewrite H1 in P; simpl in P; rewrite P; exact Hne.
      * destruct (Q1 Hwf1 s1 s2 H1) as [v [Hv Hne]].
        exists v; split; [simpl; rewrite !in_app_iff; tauto|].
        rewrite A2 by (simpl; rewrite !in_app_iff; tauto).
        assert (Hnot : ~ In v (defs_block b0)).
        { intro Hd; apply (Hdis0 v); [apply in_or_app; right; exact Hd|].
          simpl; apply in_or_app; left; exact Hv. }
        pose proof (processBlock_preserves isSubtypeOf toIValue b0 v false
                      Hnot s) as P.
        rewrite H0 in P; simpl in P; rewrite <- P; exact Hne.
    + rewrite processNode_aten in H; destruct (negb _); [discriminate|].
      destruct (processAtenOps_true _ s s' H) as [o [Ho Hne]].
      exists o; split; [simpl; apply in_or_app; left; exact Ho | exact Hne].
  - intros nodes outs Hns Hwf s s' H.
    rewrite wf_block_eq in Hwf.
    rewrite processBlock_eq in H; simpl in *.
    exact (processNodes_true nodes Hns Hwf s s' H).
Qed.

(** X16.  On a graph in static single assignment form, a run that returns
    [true] has changed the type of a value that is defined in the graph:
    the flag is never raised without a change that lasts to the end of the
    run. *)
Theorem run_true_changes_something (g : Graph) (s s' : ValueTypes) :
  wf_graph g = true ->
  run isSubtypeOf toIValue g s = Done true s' ->
  exists v, In v (defs_block (g_block g)) /\ s' v <> s v.
Proof.
  unfold run, wf_graph; intros Hwf H.
  rewrite processBlock_eq in H.
  destruct (g_block g) as [ns outs]; rewrite wf_block_eq in Hwf; simpl in *.
  apply (processNodes_true ns) with (s := s); [|exact Hwf|exact H].
  apply Forall_forall; intros n _; apply processNode_true_tree.
Qed.

(** *** When the pass cannot throw *)

Lemma argumentsLoop_total (n : Node) (s : ValueTypes) :
  forall args i, inRange n i args = true ->
  exists c s', argsLoop n i args s = Done c s'.
Proof.
  induction args as [|a args IH]; intros i H; simpl in *.
  - unfold propWithNoDevice, setReturnsToDevice.
    destruct (scanInputs s (n_inputs n) scanInit);
      apply setReturnsLoop_total.
  - apply andb_true_iff in H; destruct H as [Ha Hrest].
    destruct (isSubtypeOf DeviceObjT (arg_type a)); simpl in Ha;
      [|apply IH; exact Hrest].
    apply Nat.ltb_lt, nth_error_Some in Ha.
    destruct (nth_error (n_inputs n) i) as [inp|]; [|contradiction].
    destruct (toIValue inp) as [iv|]; [|unfold ret; eauto].
    destruct iv; simpl; unfold ret; eauto.
    apply setReturnsLoop_total.
Qed.

Lemma forallb_ext_Forall {A} (f g : A -> bool) (l : list A) :
  Forall (fun x => f x = g x) l -> forallb f l = forallb g l.
Proof.
  induction 1 as [|x l Hx _ IH]; simpl; [reflexivity|].
  rewrite Hx, IH; reflexivity.
Qed.

Lemma safe_node_ext_tree (s t : ValueTypes) :
  (forall v, isTensor (t v) = isTensor (s v)) ->
  forall n, safeNode t n = safeNode s n.
Proof.
  intro H.
  apply (Node_tree_ind
    (fun n => safeNode t n = safeNode s n)
    (fun b => safeBlock t b = safeBlock s b)).
  - intros kind ins outs blocks op Hbs.
    destruct kind; try reflexivity.
    simpl; destruct blocks as [|b0 [|b1 bs]]; try reflexivity.
    inversion Hbs as [|? ? Q0 Hbs']; subst.
    inversion Hbs' as [|? ? Q1 _]; subst.
    rewrite Q0, Q1, (join_typed_ext s t H); reflexivity.
  - intros nodes outs Hns; simpl.
    apply forallb_ext_Forall; exact Hns.
Qed.

Lemma safe_block_ext (s t : ValueTypes) (b : Block) :
  only_devices_change s t -> safeBlock t b = safeBlock s b.
Proof.
  intro Hodc; destruct b as [ns outs]; simpl.
  apply forallb_ext_Forall, Forall_forall; intros n _.
  apply safe_node_ext_tree; intro v; exact (odc_isTensor s t v Hodc).
Qed.

Lemma processNodes_total (ns : list Node) :
  Forall (fun n => forall c s, safeNode s n = true ->
            exists c' s', doNode n c s = Done c' s') ns ->
  forall c s, forallb (safeNode s) ns = true ->
  exists c' s', doNodes ns c s = Done c' s'.
Proof.
  induction 1 as [|n ns Hn _ IH]; intros c s Hsafe; simpl in *.
  - unfold ret; eauto.
  - apply andb_true_iff in Hsafe; destruct Hsafe as [Hs Hrest].
    pose proof (processNode_odc_tree n c s) as Hodc.
    destruct (Hn c s Hs) as [c1 [s1 H1]].
    unfold bind; rewrite H1 in *; simpl in Hodc.
    apply IH.
    rewrite <- Hrest; apply forallb_ext_Forall, Forall_forall; intros m _.
    apply safe_node_ext_tree; intro v; exact (odc_isTensor s s1 v Hodc).
Qed.

Lemma processNode_total_tree :
  forall n c s, safeNode s n = true ->
  exists c' s', doNode n c s = Done c' s'.
Proof.
  apply (Node_tree_ind
    (fun n => forall c s, safeNode s n = true ->
              exists c' s', doNode n c s = Done c' s')
    (fun b => forall c s, safeBlock s b = true ->
              exists c' s', doBlock b c s = Done c' s')).
  - intros kind ins outs blocks op Hbs c s Hsafe.
    destruct kind;
      try (simpl; unfold ret; eauto; fail);
      try (simpl; destruct (negb _); eauto; fail).
    + rewrite processNode_If; unfold processIf; simpl in *.
      destruct blocks as [|b0 [|b1 bs]]; try discriminate.
      inversion Hbs as [|? ? Q0 Hbs']; subst.
      inversion Hbs' as [|? ? Q1 _]; subst.
      apply andb_true_iff in Hsafe; destruct Hsafe as [Hsafe Hj].
      apply andb_true_iff in Hsafe; destruct Hsafe as [Hsafe L2].
      apply andb_true_iff in Hsafe; destruct Hsafe as [Hsafe L1].
      apply andb_true_iff in Hsafe; destruct Hsafe as [S0 S1].
      apply Nat.eqb_eq in L1, L2.
      pose proof (processBlock_odc b0 c s) as O0.
      destruct (Q0 c s S0) as [c1 [s1 H0]].
      unfold bind; rewrite H0 in *; simpl in O0.
      rewrite <- (safe_block_ext s s1 b1 O0) in S1.
      pose proof (processBlock_odc b1 c1 s1) as O1.
      destruct (Q1 c1 s1 S1) as [c2 [s2 H1]].
      rewrite H1 in *; simpl in O1.
      rewrite (mergeAndApply_lengths _ _ _ L1 L2).
      assert (Hj2 : join_typed s2 (b_outputs b0) (b_outputs b1) outs = true).
      { rewrite (join_typed_ext s s2); [exact Hj|].
        intro v; rewrite (odc_isTensor s1 s2 v O1).
        exact (odc_isTensor s s1 v O0). }
      destruct (mergeLoop_typed outs (b_outputs b0) (b_outputs b1) false s2
                  L2 ltac:(congruence) Hj2) as [x [s3 H2]].
      rewrite H2; unfold ret; eauto.
    + rewrite processNode_aten; destruct (negb _); [eauto|].
      unfold processAtenOps, defaultDeviceProp, maybeSchema; simpl in *.
      destruct op as [o|]; simpl; [|unfold ret; eauto].
      destruct (argumentsLoop_total
                  (mkNode (aten name) ins outs blocks (Some o)) s
                  (arguments (op_schema o)) 0 Hsafe) as [c1 [s1 H1]].
      unfold bind; rewrite H1; unfold ret; eauto.
  - intros nodes outs Hns c s Hsafe.
    destruct (processNodes_total nodes Hns c s Hsafe) as [c' [s' H]].
    exists c', s'; rewrite processBlock_eq; exact H.
Qed.

(** X17.  The pass returns, without throwing, on every graph in which each
    conditional it gets to has two blocks, as many exit values in each as
    it has outputs, and a tensor output wherever both exit values are
    tensors, and each [aten] node with a resolved operator has an input at
    the position of every device parameter of its schema.  These are
    conditions on the graph as it is before the run. *)
Theorem run_returns_on_safe_graph (g : Graph) (s : ValueTypes) :
  safe_block isSubtypeOf s (g_block g) = true ->
  exists changed s', run isSubtypeOf toIValue g s = Done changed s'.
Proof.
  intro Hsafe; unfold run; rewrite processBlock_eq.
  destruct (g_block g) as [ns outs]; simpl in *.
  apply processNodes_total; [|exact Hsafe].
  apply Forall_forall; intros n _; apply processNode_total_tree.
Qed.

End TraversalFacts.

(** ** The further properties on concrete nodes and graphs *)

Lemma defaultDeviceProp_falls_back_witness :
  defaultDeviceProp jit_isSubtypeOf none_consts two_device_node two_device_types
  = propWithNoDevice two_device_node two_device_types.
Proof.
  apply (defaultDeviceProp_falls_back jit_isSubtypeOf none_consts
           two_device_node (mkOperator two_device_schema) two_device_types);
    reflexivity.
Defined.

Lemma defaultDeviceProp_input_missing_witness :
  defaultDeviceProp jit_isSubtypeOf to_consts short_to_node to_types
  = Abort OutOfRange to_types.
Proof.
  apply (defaultDeviceProp_input_missing jit_isSubtypeOf to_consts
           short_to_node (mkOperator to_schema)
           [mkArgument "self" plainTensor]
           (mkArgument "device" (OptionalT DeviceObjT)) [] to_types).
  - reflexivity.
  - reflexivity.
  - reflexivity.
  - reflexivity.
  - simpl; lia.
Defined.

Lemma defaultDeviceProp_throws_only_out_of_range_witness :
  exists e s',
    defaultDeviceProp jit_isSubtypeOf to_consts short_to_node to_types
      = Abort e s' /\
    e = OutOfRange /\ s' = to_types.
Proof.
  do 2 eexists; split; [reflexivity|].
  apply (defaultDeviceProp_throws_only_out_of_range jit_isSubtypeOf to_consts
           short_to_node to_types).
  reflexivity.
Defined.

Lemma run_writes_only_reached_outputs_witness :
  final (run jit_isSubtypeOf no_consts loop_graph loop_types) 16
  = loop_types 16.
Proof.
  apply (run_writes_only_reached_outputs jit_isSubtypeOf no_consts
           loop_graph loop_types 16).
  simpl; tauto.
Defined.

Lemma run_false_changes_only_join_outputs_witness :
  exists s',
    run jit_isSubtypeOf no_consts relu_graph relu_types = Done false s' /\
    forall v, ~ In v (join_outputs_block (g_block relu_graph)) ->
              s' v = relu_types v.
Proof.
  eexists; split; [reflexivity|].
  apply (run_false_changes_only_join_outputs jit_isSubtypeOf no_consts
           relu_graph relu_types).
  reflexivity.
Defined.

Lemma run_true_changes_something_witness :
  exists s',
    run jit_isSubtypeOf to_consts small_graph small_types = Done true s' /\
    exists v, In v (defs_block (g_block small_graph)) /\ s' v <> small_types v.
Proof.
  eexists; split; [reflexivity|].
  apply (run_true_changes_something jit_isSubtypeOf to_consts
           small_graph small_types); reflexivity.
Defined.

Lemma run_returns_on_safe_graph_witness :
  exists changed s',
    run jit_isSubtypeOf to_consts small_graph small_types = Done changed s'.
Proof.
  apply (run_returns_on_safe_graph jit_isSubtypeOf to_consts
           small_graph small_types).
  reflexivity.
Defined.
